(** * ansible-terraform: the inventory plugin, embedded and verified

    A shallow embedding of [src/ansible-terraform.py]: the state locator
    [get_tf_state] and the inventory resolver [parse].  The plugin mutates an
    Ansible inventory in place and aborts by raising [AnsiblePluginError];
    both effects are made explicit with a small state-and-exception monad
    whose state (the inventory) survives a raised exception. *)

From stdpp Require Import gmap strings list.

Local Open Scope string_scope.
Local Open Scope list_scope.

#[local] Set Warnings "-clear-no-such-hyp".

(** ** JSON values and the state document *)

#[local] Unset Elimination Schemes.
Inductive JSONValue : Type :=
| JNull
| JBool (b : bool)
| JNumber (n : Z)
| JString (s : string)
| JArray (items : list JSONValue)
| JObject (members : list (string * JSONValue)).
#[local] Set Elimination Schemes.

(** The ["attributes"] mapping of one resource instance.  [None] is JSON
    [null].  A Python dict is iterated in insertion order, hence
    ["variables"] is an ordered list of key/value pairs.  Every key that
    lines 64 to 91 subscript is present: a document that lacks one makes
    the code raise [KeyError], and has no counterpart here. *)
Record Instance : Type := {
  name : string;
  children : option (list string);
  groups : option (list string);
  variables : option (list (string * JSONValue))
}.

(** One entry of the ["resources"] list.  The provider key may be absent:
    the code reads it with [resource.get("provider", "")]. *)
Record Resource : Type := {
  provider : option string;
  type : string;
  instances : list Instance
}.

Record StateDocument : Type := { resources : list Resource }.

(** The double quote character, and the provider literal of line 61:
    provider["registry.terraform.io/ansible/ansible"]. *)
Definition dquote : string := String (Ascii.ascii_of_nat 34) EmptyString.

Definition ANSIBLE_PROVIDER : string :=
  "provider[" +:+ dquote +:+ "registry.terraform.io/ansible/ansible"
              +:+ dquote +:+ "]".

(** ** The inventory sink *)

(** Modelled from the spec: the inventory sink is Ansible's [InventoryData],
    an external collaborator whose code is not part of the repository.  The
    model is the inventory graph of the spec's data model: host names and
    group names, each in its own namespace, group-to-child edges, and
    variable bindings attached to an owner name.  Creating a node that
    already exists does not duplicate it.  Input validation that the sink may
    perform on its own account is not described by the spec and is not
    modelled: the operations are total. *)
Record InventoryData : Type := {
  inv_hosts : gset string;
  inv_groups : gset string;
  inv_edges : gset (string * string);
  inv_vars : gmap (string * string) JSONValue
}.

Definition empty_inventory : InventoryData :=
  {| inv_hosts := ∅; inv_groups := ∅; inv_edges := ∅; inv_vars := ∅ |}.

(** ** Exceptions and the monad *)

Inductive exception : Type :=
| AnsiblePluginError (msg : string).

Inductive outcome (A : Type) : Type :=
| OK (a : A)
| Raise (e : exception).
Arguments OK {A} a.
Arguments Raise {A} e.

(** A computation reads and mutates the inventory; the inventory it returns
    is the one the caller is left with, also when an exception is raised. *)
Definition M (A : Type) : Type := InventoryData → InventoryData * outcome A.

Definition ret {A} (a : A) : M A := fun inv => (inv, OK a).

Definition raise {A} (e : exception) : M A := fun inv => (inv, Raise e).

Definition bind {A B} (m : M A) (k : A → M B) : M B :=
  fun inv =>
    match m inv with
    | (inv', OK a) => k a inv'
    | (inv', Raise e) => (inv', Raise e)
    end.

Declare Scope inv_scope.
Delimit Scope inv_scope with inv.
Notation "x <- m ;; k" := (bind m (fun x => k))
  (at level 100, m at next level, right associativity) : inv_scope.
Notation "m ;;; k" := (bind m (fun _ => k))
  (at level 100, right associativity) : inv_scope.
Local Open Scope inv_scope.

(** [for x in l: body(x)] *)
Fixpoint for_each {A} (l : list A) (body : A → M unit) : M unit :=
  match l with
  | [] => ret tt
  | x :: l' => body x ;;; for_each l' body
  end.

(** A loop that also updates a local variable of type [S]. *)
Fixpoint for_fold {A S} (l : list A) (body : S → A → M S) (s : S) : M S :=
  match l with
  | [] => ret s
  | x :: l' => s' <- body s x ;; for_fold l' body s'
  end.

(** *** Sink operations *)

(** Modelled from the spec: [add_group(name)]; returns the name it used. *)
Definition add_group (group : string) : M string :=
  fun inv =>
    ({| inv_hosts := inv_hosts inv;
        inv_groups := {[group]} ∪ inv_groups inv;
        inv_edges := inv_edges inv;
        inv_vars := inv_vars inv |}, OK group).

(** Modelled from the spec: [add_host(name)]; returns the name it used. *)
Definition add_host (host : string) : M string :=
  fun inv =>
    ({| inv_hosts := {[host]} ∪ inv_hosts inv;
        inv_groups := inv_groups inv;
        inv_edges := inv_edges inv;
        inv_vars := inv_vars inv |}, OK host).

(** Modelled from the spec: [add_child(parent, child_name)]. *)
Definition add_child (group child : string) : M unit :=
  fun inv =>
    ({| inv_hosts := inv_hosts inv;
        inv_groups := inv_groups inv;
        inv_edges := {[(group, child)]} ∪ inv_edges inv;
        inv_vars := inv_vars inv |}, OK tt).

(** Modelled from the spec: [set_variable(owner_name, key, value)]. *)
Definition set_variable (entity varname : string) (value : JSONValue) : M unit :=
  fun inv =>
    ({| inv_hosts := inv_hosts inv;
        inv_groups := inv_groups inv;
        inv_edges := inv_edges inv;
        inv_vars := <[(entity, varname) := value]> (inv_vars inv) |}, OK tt).

(** Modelled from the spec: [list_group_names()], which the code reaches as
    the key set of [inventory.get_groups_dict()]. *)
Definition get_groups_dict : M (gset string) :=
  fun inv => (inv, OK (inv_groups inv)).

(** Modelled from the spec: [contains_host(name)], which the code reaches as
    membership in [inventory.hosts]. *)
Definition hosts : M (gset string) :=
  fun inv => (inv, OK (inv_hosts inv)).

(** ** The inventory resolver: [InventoryModule.parse], lines 58 to 101 *)

(** [delayed = defaultdict(list)], keyed by group name; a dict keeps the
    order in which its keys were first inserted. *)
Definition Delayed : Type := list (string * list string).

(** [delayed[group].append(child)] *)
Fixpoint delayed_append (delayed : Delayed) (group child : string) : Delayed :=
  match delayed with
  | [] => [(group, [child])]
  | (k, cs) :: rest =>
      if decide (k = group) then (k, cs ++ [child]) :: rest
      else (k, cs) :: delayed_append rest group child
  end.

Definition conflict_message (host : string) : string :=
  "Found conflict between group name and host name: " +:+ host.

(** The spec's [ConflictError] naming [host] is the exception of line 84. *)
Definition ConflictError (host : string) : exception :=
  AnsiblePluginError (conflict_message host).

(** Lines 80 to 86: the body of [for group in data["groups"]]. *)
Definition register_host_group (host group : string) : M unit :=
  group_name <- add_group group ;;
  known <- get_groups_dict ;;
  if decide (host ∈ known) then raise (ConflictError host)
  else add_child group_name host.

(** Lines 91 to 93. *)
Definition set_variables (data : Instance) : M unit :=
  match variables data with
  | None => ret tt
  | Some vars =>
      for_each vars (fun kv => set_variable (name data) kv.1 kv.2)
  end.

(** Lines 65 to 93: the body of [for instance in resource["instances"]]. *)
Definition parse_instance (rtype : string) (delayed : Delayed) (data : Instance)
  : M Delayed :=
  if decide (rtype = "ansible_group") then
    group <- add_group (name data) ;;
    let delayed' :=
      match children data with
      | None => delayed
      | Some cs => foldl (fun d child => delayed_append d group child) delayed cs
      end in
    set_variables data ;;;
    ret delayed'
  else if decide (rtype = "ansible_host") then
    host <- add_host (name data) ;;
    (match groups data with
     | None => ret tt
     | Some gs => for_each gs (register_host_group host)
     end) ;;;
    set_variables data ;;;
    ret delayed
  else ret delayed.

(** Lines 61 to 64: the body of [for resource in resources]. *)
Definition parse_resource (delayed : Delayed) (resource : Resource) : M Delayed :=
  if decide (default "" (provider resource) = ANSIBLE_PROVIDER) then
    for_fold (instances resource) (parse_instance (type resource)) delayed
  else ret delayed.

(** Lines 97 to 101: the body of the inner loop over a delayed child. *)
Definition register_delayed_child (group child : string) : M unit :=
  hs <- hosts ;;
  gs <- get_groups_dict ;;
  (if decide ((child ∉ hs) ∧ (child ∉ gs)) then _ <- add_group child ;; ret tt
   else ret tt) ;;;
  add_child group child.

(** Lines 96 to 101. *)
Definition register_delayed (delayed : Delayed) : M unit :=
  for_each delayed (fun entry =>
    for_each entry.2 (register_delayed_child entry.1)).

(** Lines 58 to 101: the resolver proper, on the resource list. *)
Definition parse_resources (rs : list Resource) : M unit :=
  delayed <- for_fold rs parse_resource [] ;;
  register_delayed delayed.

(** ** The state locator: [InventoryModule.get_tf_state] *)

(** An absolute path, by its segments below the root; [p </> s] is [p / s]
    for a segment [s] that names one relative component. *)
Definition Path : Type := list string.

Definition joinpath (p : Path) (segment : string) : Path := p ++ [segment].
Notation "p </> s" := (joinpath p s) (at level 40, left associativity).

Fixpoint as_posix (p : Path) : string :=
  match p with
  | [] => ""
  | segment :: p' => "/" +:+ segment +:+ as_posix p'
  end.

(** The files the plugin can see: the text of the file at a path, if any.
    A path that exists and cannot be read as text has no counterpart here. *)
Definition FileSystem : Type := Path → option string.

(** Lines 31 to 39: the workspace name that was read, if any, and the
    candidate path of the state file.  [env.exists()] followed by
    [env.read_text] is one lookup of the file's text. *)
Definition locate_state_file (fs : FileSystem) (cwd : Path)
  : option string * Path :=
  let env := cwd </> ".terraform" </> "environment" in
  let state_file := cwd </> "terraform.tfstate" in
  match fs env with
  | Some env_name =>
      if decide (env_name ≠ "default") then
        (Some env_name,
         cwd </> "terraform.tfstate.d" </> env_name </> "terraform.tfstate")
      else (Some env_name, state_file)
  | None => (None, state_file)
  end.

(** Line 43: a missing or empty workspace name is left out of the message. *)
Definition env_string (env_name : option string) : string :=
  match env_name with
  | Some w => if decide (w = "") then "" else " for workspace " +:+ w
  | None => ""
  end.

(** Line 45. *)
Definition not_found_message (env_name : option string) (state_file : Path)
  : string :=
  "Could not locate the terraform state file" +:+ env_string env_name
    +:+ ". Expected at: " +:+ as_posix state_file.

Definition newline : string := String (Ascii.ascii_of_nat 10) EmptyString.

(** Line 50. *)
Definition load_failure_message (reason : string) : string :=
  "Failed to load the state file due to:" +:+ newline +:+ reason.

Section Locator.

(** [json.loads] together with the typing of the parsed document: the text
    of the exception on the left, the document on the right. *)
Variable json_loads : string → string + StateDocument.

Definition get_tf_state (fs : FileSystem) (cwd : Path) : outcome StateDocument :=
  let '(env_name, state_file) := locate_state_file fs cwd in
  match fs state_file with
  | None => Raise (AnsiblePluginError (not_found_message env_name state_file))
  | Some text =>
      match json_loads text with
      | inr document => OK document
      | inl reason => Raise (AnsiblePluginError (load_failure_message reason))
      end
  end.

(** Lines 52 to 101: [parse] reads the state, then resolves its resources.
    The call of the base class on line 55 only records its arguments. *)
Definition parse (fs : FileSystem) (cwd : Path) : M unit :=
  match get_tf_state fs cwd with
  | OK document => parse_resources (resources document)
  | Raise e => raise e
  end.

End Locator.

(** ** Reading the resource list instance by instance *)

(** The instances the outer two loops reach, in order, each with the type of
    its resource; resources of another provider contribute none. *)
Definition items (rs : list Resource) : list (string * Instance) :=
  flat_map (fun r =>
    if decide (default "" (provider r) = ANSIBLE_PROVIDER)
    then map (pair (type r)) (instances r) else []) rs.

Definition parse_items (its : list (string * Instance)) (delayed : Delayed)
  : M Delayed :=
  for_fold its (fun d it => parse_instance it.1 d it.2) delayed.

(** ** Properties of an inventory *)

(** [graph_le inv inv']: every node, edge and bound variable of [inv] is
    still present in [inv']. *)
Definition graph_le (inv inv' : InventoryData) : Prop :=
  inv_hosts inv ⊆ inv_hosts inv' ∧
  inv_groups inv ⊆ inv_groups inv' ∧
  inv_edges inv ⊆ inv_edges inv' ∧
  dom (inv_vars inv) ⊆ dom (inv_vars inv').

(** A sink nobody has written to. *)
Definition fresh (inv : InventoryData) : Prop :=
  inv_hosts inv = ∅ ∧ inv_groups inv = ∅ ∧ inv_edges inv = ∅ ∧ inv_vars inv = ∅.

(** [delayed_has d g c]: child [c] is recorded under group [g]. *)
Definition delayed_has (d : Delayed) (g c : string) : Prop :=
  ∃ cs, (g, cs) ∈ d ∧ c ∈ cs.

(** [contains s t]: the text [t] occurs in [s]. *)
Definition contains (s t : string) : Prop :=
  ∃ before after, s = before +:+ t +:+ after.

(** ** Properties of a computation *)

(** Whatever the outcome, the inventory left behind is [R]-related to the
    one the computation started from. *)
Definition preserves (R : relation InventoryData) {A} (m : M A) : Prop :=
  ∀ inv, R inv (m inv).1.

(** The sink only grows. *)
Abbreviation grows := (preserves graph_le).

(** The computation cannot raise. *)
Definition returns {A} (m : M A) : Prop := ∀ inv, ∃ inv' a, m inv = (inv', OK a).

(** The nodes and edges of a sink, which [set_variable] leaves alone. *)
Definition same_skeleton (inv inv' : InventoryData) : Prop :=
  inv_hosts inv = inv_hosts inv' ∧
  inv_groups inv = inv_groups inv' ∧
  inv_edges inv = inv_edges inv'.

(** ** Fixtures: resources of the recognised provider with one instance *)

Definition group_resource (n : string) (cs : option (list string))
    (vars : option (list (string * JSONValue))) : Resource :=
  {| provider := Some ANSIBLE_PROVIDER; type := "ansible_group";
     instances := [ {| name := n; children := cs; groups := None;
                       variables := vars |} ] |}.

Definition host_resource (n : string) (gs : option (list string))
    (vars : option (list (string * JSONValue))) : Resource :=
  {| provider := Some ANSIBLE_PROVIDER; type := "ansible_host";
     instances := [ {| name := n; children := None; groups := gs;
                       variables := vars |} ] |}.

(** A host, then a group that lists it among its children. *)
Definition host_then_group : list Resource :=
  [ host_resource "X" None None; group_resource "G" (Some ["X"]) None ].

(** The scenario of one group and one host with a variable. *)
Definition web_app1 : list Resource :=
  [ group_resource "web" (Some ["app1"]) None;
    host_resource "app1" None (Some [("port", JNumber 8080)]) ].

(** A group with a variable, a host, then a host named like the group. *)
Definition conflict_after_mutations : list Resource :=
  [ group_resource "web" None (Some [("tier", JString "front")]);
    host_resource "db" None None;
    host_resource "web" (Some ["prod"]) None ].

(** A host without groups whose name is a group name already. *)
Definition host_named_like_a_group : list Resource :=
  [ group_resource "web" None None; host_resource "web" None None ].

(** Resources of another provider, and one without a provider key. *)
Definition unrelated_resources : list Resource :=
  [ {| provider := Some "provider[registry.terraform.io/hashicorp/aws]";
       type := "ansible_host";
       instances := [ {| name := "db"; children := None; groups := Some ["prod"];
                         variables := Some [("port", JNumber 5432)] |} ] |};
    {| provider := None; type := "ansible_group";
       instances := [ {| name := "prod"; children := Some ["db"]; groups := None;
                         variables := None |} ] |} ].

(** A working directory in the workspace [staging], with the state of the
    default workspace only. *)
Definition staging_without_state : FileSystem :=
  λ p, if decide (p = ["srv"; "infra"; ".terraform"; "environment"])
       then Some "staging"
       else if decide (p = ["srv"; "infra"; "terraform.tfstate"])
       then Some "{}" else None.

(** ** The file filter: [InventoryModule.verify_file], lines 19 to 24 *)

(** [s.endswith(suffix)]: some tail of [s] is [suffix]. *)
Fixpoint endswith (s suffix : string) : bool :=
  if String.eqb s suffix then true
  else match s with
       | EmptyString => false
       | String _ s' => endswith s' suffix
       end.

Section VerifyFile.

(** [BaseInventoryPlugin.verify_file], reached through [super()]. *)
Variable base_verify_file : string → bool.

Definition verify_file (path : string) : bool :=
  if base_verify_file path then
    if endswith path "tf.yml" || endswith path "tf.yaml" then true else false
  else false.

End VerifyFile.

(** ** What a resource list declares *)

(** A resource that passes the test of line 61. *)
Definition recognised (r : Resource) : bool :=
  bool_decide (default "" (provider r) = ANSIBLE_PROVIDER).

(** [delayed[group]], the empty list when the key is absent. *)
Fixpoint delayed_get (delayed : Delayed) (group : string) : list string :=
  match delayed with
  | [] => []
  | (k, cs) :: rest => if decide (k = group) then cs else delayed_get rest group
  end.

(** The children that the group instances named [group] list, in order. *)
Definition declared_children (its : list (string * Instance)) (group : string)
  : list string :=
  flat_map (λ it,
    if decide (it.1 = "ansible_group" ∧ name it.2 = group)
    then default [] (children it.2) else []) its.

(** The union of what each instance contributes. *)
Definition declared {K} `{Countable K} (f : string * Instance → gset K)
    (its : list (string * Instance)) : gset K :=
  ⋃ (f <$> its).

(** Line 78: the host an instance registers. *)
Definition item_hosts (it : string * Instance) : gset string :=
  if decide (it.1 = "ansible_host") then {[name it.2]} else ∅.

(** Lines 69 and 81: the groups an instance registers. *)
Definition item_groups (it : string * Instance) : gset string :=
  if decide (it.1 = "ansible_group") then {[name it.2]}
  else if decide (it.1 = "ansible_host")
       then list_to_set (default [] (groups it.2)) else ∅.

(** Line 86: the edges from the groups a host lists to the host. *)
Definition item_host_edges (it : string * Instance) : gset (string * string) :=
  if decide (it.1 = "ansible_host")
  then list_to_set ((λ g, (g, name it.2)) <$> default [] (groups it.2)) else ∅.

(** Line 75: the children a group instance lists. *)
Definition item_children (it : string * Instance) : gset string :=
  if decide (it.1 = "ansible_group")
  then list_to_set (default [] (children it.2)) else ∅.

(** Lines 75 and 101: the edges from a group to the children it lists. *)
Definition item_child_edges (it : string * Instance) : gset (string * string) :=
  if decide (it.1 = "ansible_group")
  then list_to_set ((λ c, (name it.2, c)) <$> default [] (children it.2)) else ∅.

(** Lines 91 to 93: the owner and key of each variable an instance sets. *)
Definition item_vars (it : string * Instance) : gset (string * string) :=
  if decide (it.1 = "ansible_group" ∨ it.1 = "ansible_host")
  then list_to_set ((λ kv, (name it.2, kv.1)) <$> default [] (variables it.2))
  else ∅.

(** The names of the instances whose variables are set. *)
Definition item_owner (it : string * Instance) : gset string :=
  if decide (it.1 = "ansible_group" ∨ it.1 = "ansible_host")
  then {[name it.2]} else ∅.

(** The edges and the children recorded in the delayed mapping. *)
Definition delayed_edges (d : Delayed) : gset (string * string) :=
  ⋃ ((λ entry, list_to_set ((λ c, (entry.1, c)) <$> entry.2)) <$> d).

Definition delayed_children (d : Delayed) : gset string :=
  ⋃ ((λ entry, list_to_set entry.2) <$> d).

(** The name lines 83 and 84 raise the conflict for, if any, when the
    instances are handled from a sink whose group names are [G]. *)
Fixpoint first_conflict (G : gset string) (its : list (string * Instance))
  : option string :=
  match its with
  | [] => None
  | it :: rest =>
      if decide (it.1 = "ansible_group") then
        first_conflict ({[name it.2]} ∪ G) rest
      else if decide (it.1 = "ansible_host") then
        match groups it.2 with
        | Some (g :: gs) =>
            if decide (name it.2 ∈ G ∪ list_to_set (g :: gs))
            then Some (name it.2)
            else first_conflict (list_to_set (g :: gs) ∪ G) rest
        | _ => first_conflict G rest
        end
      else first_conflict G rest
  end.

(** Every edge joins a registered group to a registered host or group, and
    every variable belongs to a registered host or group. *)
Definition well_formed (inv : InventoryData) : Prop :=
  (∀ g c, (g, c) ∈ inv_edges inv →
     g ∈ inv_groups inv ∧ (c ∈ inv_hosts inv ∨ c ∈ inv_groups inv)) ∧
  (∀ o k, (o, k) ∈ dom (inv_vars inv) →
     o ∈ inv_hosts inv ∨ o ∈ inv_groups inv).

(** [keeps P]: a property that holds before still holds after. *)
Definition keeps (P : InventoryData → Prop) : relation InventoryData :=
  λ inv inv', P inv → P inv'.

(** A group with a declared host and an undeclared name among its
    children, and the sink the empty sink becomes. *)
Definition fleet : list Resource :=
  [ group_resource "web" (Some ["app1"; "edge"]) None;
    host_resource "app1" (Some ["prod"]) (Some [("port", JNumber 8080)]) ].

Definition fleet_sink : InventoryData :=
  {| inv_hosts := {["app1"]};
     inv_groups := {["web"; "prod"; "edge"]};
     inv_edges := {[("prod", "app1"); ("web", "app1"); ("web", "edge")]};
     inv_vars := {[ ("app1", "port") := JNumber 8080 ]} |}.

(** * Verification *)

(** ** The monad and its loops *)

Lemma bind_OK {A B} (m : M A) (k : A → M B) inv inv1 a :
  m inv = (inv1, OK a) → bind m k inv = k a inv1.
Proof. intros H. unfold bind. by rewrite H. Qed.

Lemma bind_Raise {A B} (m : M A) (k : A → M B) inv inv1 e :
  m inv = (inv1, Raise e) → bind m k inv = (inv1, Raise e).
Proof. intros H. unfold bind. by rewrite H. Qed.

(** A bind that returns went through both of its halves. *)
Lemma bind_inv_OK {A B} (m : M A) (k : A → M B) inv inv' b :
  bind m k inv = (inv', OK b) →
  ∃ inv1 a, m inv = (inv1, OK a) ∧ k a inv1 = (inv', OK b).
Proof.
  unfold bind. destruct (m inv) as [inv1 [a|e]]; intros H.
  - by exists inv1, a.
  - discriminate.
Qed.

(** A bind that raises did so in its first half, or after it returned. *)
Lemma bind_inv_Raise {A B} (m : M A) (k : A → M B) inv inv' e :
  bind m k inv = (inv', Raise e) →
  m inv = (inv', Raise e) ∨
  ∃ inv1 a, m inv = (inv1, OK a) ∧ k a inv1 = (inv', Raise e).
Proof.
  unfold bind. destruct (m inv) as [inv1 [a|e1]]; intros H.
  - right. by exists inv1, a.
  - left. by simplify_eq.
Qed.

Lemma for_fold_app {A S} (body : S → A → M S) (l1 l2 : list A) (s : S) inv :
  for_fold (l1 ++ l2) body s inv
  = bind (for_fold l1 body s) (for_fold l2 body) inv.
Proof.
  revert s inv. induction l1 as [|x l1 IH]; intros s inv; simpl.
  - reflexivity.
  - unfold bind. destruct (body s x inv) as [inv1 [s'|e]]; [|done].
    rewrite IH. reflexivity.
Qed.

(** A loop that returned after [l1 ++ x :: l2] returned after [l1], after
    [x], and after [l2]. *)
Lemma for_fold_split_OK {A S} (body : S → A → M S) l1 x l2 s inv inv' s' :
  for_fold (l1 ++ x :: l2) body s inv = (inv', OK s') →
  ∃ inv1 s1 inv2 s2,
    for_fold l1 body s inv = (inv1, OK s1) ∧
    body s1 x inv1 = (inv2, OK s2) ∧
    for_fold l2 body s2 inv2 = (inv', OK s').
Proof.
  rewrite for_fold_app. intros H.
  apply bind_inv_OK in H as (inv1 & s1 & H1 & H). simpl in H.
  apply bind_inv_OK in H as (inv2 & s2 & H2 & H).
  by exists inv1, s1, inv2, s2.
Qed.

(** A loop that raised did so at one element, after the ones before it. *)
Lemma for_fold_inv_Raise {A S} (body : S → A → M S) l s inv inv' e :
  for_fold l body s inv = (inv', Raise e) →
  ∃ l1 x l2 inv1 s1,
    l = l1 ++ x :: l2 ∧
    for_fold l1 body s inv = (inv1, OK s1) ∧
    body s1 x inv1 = (inv', Raise e).
Proof.
  revert s inv. induction l as [|x l IH]; intros s inv; simpl.
  - discriminate.
  - intros H. apply bind_inv_Raise in H as [H | (inv1 & s1 & H1 & H)].
    + by exists [], x, l, inv, s.
    + apply IH in H as (l1 & y & l2 & inv2 & s2 & -> & Hl1 & Hy).
      exists (x :: l1), y, l2, inv2, s2. split; [done|]. split; [|done].
      simpl. by rewrite (bind_OK _ _ _ _ _ H1).
Qed.

Lemma for_each_inv_Raise {A} (body : A → M unit) l inv inv' e :
  for_each l body inv = (inv', Raise e) →
  ∃ l1 x l2 inv1,
    l = l1 ++ x :: l2 ∧
    for_each l1 body inv = (inv1, OK tt) ∧
    body x inv1 = (inv', Raise e).
Proof.
  revert inv. induction l as [|x l IH]; intros inv; simpl.
  - discriminate.
  - intros H. apply bind_inv_Raise in H as [H | (inv1 & [] & H1 & H)].
    + by exists [], x, l, inv.
    + apply IH in H as (l1 & y & l2 & inv2 & -> & Hl1 & Hy).
      exists (x :: l1), y, l2, inv2. split; [done|]. split; [|done].
      simpl. by rewrite (bind_OK _ _ _ _ _ H1).
Qed.

(** *** Computations that keep a relation on the inventory *)

Section Preserves.

Context (R : relation InventoryData) `{!PreOrder R}.

Lemma preserves_ret {A} (a : A) : preserves R (ret a).
Proof. intros inv. simpl. reflexivity. Qed.

Lemma preserves_raise {A} e : preserves R (@raise A e).
Proof. intros inv. simpl. reflexivity. Qed.

Lemma preserves_bind {A B} (m : M A) (k : A → M B) :
  preserves R m → (∀ a, preserves R (k a)) → preserves R (bind m k).
Proof.
  intros Hm Hk inv. unfold bind. specialize (Hm inv).
  destruct (m inv) as [inv1 [a|e]]; simpl in *.
  - etrans; [exact Hm|]. apply Hk.
  - exact Hm.
Qed.

Lemma preserves_for_each {A} (l : list A) (body : A → M unit) :
  (∀ x, preserves R (body x)) → preserves R (for_each l body).
Proof.
  intros Hb. induction l as [|x l IH]; simpl.
  - apply preserves_ret.
  - apply preserves_bind; [apply Hb | intros _; exact IH].
Qed.

Lemma preserves_for_fold {A S} (l : list A) (body : S → A → M S) s :
  (∀ s x, preserves R (body s x)) → preserves R (for_fold l body s).
Proof.
  intros Hb. revert s. induction l as [|x l IH]; intros s; simpl.
  - apply preserves_ret.
  - apply preserves_bind; [apply Hb | intros s'; apply IH].
Qed.

Lemma preserves_run {A} (m : M A) inv inv' r :
  preserves R m → m inv = (inv', r) → R inv inv'.
Proof. intros Hm H. specialize (Hm inv). by rewrite H in Hm. Qed.

End Preserves.

(** ** The sink only grows *)

#[local] Instance graph_le_preorder : PreOrder graph_le.
Proof.
  split.
  - intros inv. by repeat split.
  - intros a b c (?&?&?&?) (?&?&?&?). repeat split; set_solver.
Qed.

Lemma add_group_grows g : grows (add_group g).
Proof. intros inv. repeat split; simpl; set_solver. Qed.

Lemma add_host_grows h : grows (add_host h).
Proof. intros inv. repeat split; simpl; set_solver. Qed.

Lemma add_child_grows g c : grows (add_child g c).
Proof. intros inv. repeat split; simpl; set_solver. Qed.

Lemma set_variable_grows e k v : grows (set_variable e k v).
Proof. intros inv. repeat split; simpl; try done. rewrite dom_insert_L. set_solver. Qed.

Lemma get_groups_dict_grows : grows get_groups_dict.
Proof. intros inv. simpl. reflexivity. Qed.

Lemma hosts_grows : grows hosts.
Proof. intros inv. simpl. reflexivity. Qed.

Create HintDb grows.
#[local] Hint Resolve preserves_ret preserves_raise add_group_grows add_host_grows
  add_child_grows set_variable_grows get_groups_dict_grows hosts_grows
  graph_le_preorder : grows.

Ltac grows_step :=
  first
    [ apply preserves_bind; [apply _ | | intros ?]
    | apply preserves_for_each; [apply _ | intros ?]
    | apply preserves_for_fold; [apply _ | intros ? ?]
    | case_decide
    | solve [eauto with grows] ].

Lemma register_host_group_grows host group : grows (register_host_group host group).
Proof. unfold register_host_group. repeat grows_step. Qed.

Lemma set_variables_grows data : grows (set_variables data).
Proof. unfold set_variables. destruct (variables data); repeat grows_step. Qed.

#[local] Hint Resolve register_host_group_grows set_variables_grows : grows.

Lemma parse_instance_grows rtype delayed data :
  grows (parse_instance rtype delayed data).
Proof.
  unfold parse_instance. repeat case_decide; repeat grows_step.
  destruct (groups data); repeat grows_step.
Qed.

#[local] Hint Resolve parse_instance_grows : grows.

Lemma parse_items_grows its delayed : grows (parse_items its delayed).
Proof. unfold parse_items. repeat grows_step. Qed.

Lemma parse_resource_grows delayed resource : grows (parse_resource delayed resource).
Proof. unfold parse_resource. repeat grows_step. Qed.

Lemma register_delayed_child_grows group child :
  grows (register_delayed_child group child).
Proof. unfold register_delayed_child. repeat grows_step. Qed.

#[local] Hint Resolve parse_items_grows parse_resource_grows
  register_delayed_child_grows : grows.

Lemma register_delayed_grows delayed : grows (register_delayed delayed).
Proof. unfold register_delayed. repeat grows_step. Qed.

#[local] Hint Resolve register_delayed_grows : grows.

Lemma parse_resources_grows rs : grows (parse_resources rs).
Proof. unfold parse_resources. repeat grows_step. Qed.

(** ** The two outer loops read the instances in order *)

Lemma for_fold_typed_instances rtype (l : list Instance) d inv :
  for_fold (map (pair rtype) l) (λ d it, parse_instance it.1 d it.2) d inv
  = for_fold l (parse_instance rtype) d inv.
Proof.
  revert d inv. induction l as [|x l IH]; intros d inv; simpl; [done|].
  unfold bind. destruct (parse_instance rtype d x inv) as [inv1 [d1|e]]; [|done].
  apply IH.
Qed.

Lemma scan_items rs d inv :
  for_fold rs parse_resource d inv = parse_items (items rs) d inv.
Proof.
  unfold parse_items. revert d inv.
  induction rs as [|r rs IH]; intros d inv; simpl; [done|].
  rewrite for_fold_app. unfold bind, parse_resource.
  case_decide.
  - rewrite for_fold_typed_instances.
    destruct (for_fold (instances r) _ d inv) as [inv1 [d1|e]]; [|done].
    apply IH.
  - simpl. apply IH.
Qed.

Lemma parse_resources_items rs inv :
  parse_resources rs inv
  = bind (parse_items (items rs) []) register_delayed inv.
Proof. unfold parse_resources, bind. by rewrite scan_items. Qed.

(** ** The delayed children *)

Lemma delayed_append_has d g c : delayed_has (delayed_append d g c) g c.
Proof.
  induction d as [|[k cs] d IH]; simpl.
  - exists [c]. set_solver.
  - case_decide as Hk.
    + subst k. exists (cs ++ [c]). set_solver.
    + destruct IH as (cs' & ? & ?). exists cs'. set_solver.
Qed.

Lemma delayed_append_mono d g c g' c' :
  delayed_has d g' c' → delayed_has (delayed_append d g c) g' c'.
Proof.
  unfold delayed_has. induction d as [|[k cs] d IH]; simpl.
  - intros (cs' & H & _). set_solver.
  - intros (cs' & [Heq | Hin]%elem_of_cons & Hc).
    + simplify_eq. case_decide.
      * exists (cs ++ [c]). set_solver.
      * exists cs. set_solver.
    + destruct IH as (cs'' & ? & ?); [by exists cs'|].
      case_decide; [exists cs' | exists cs'']; set_solver.
Qed.

Lemma delayed_extend_mono d g cs g' c' :
  delayed_has d g' c' →
  delayed_has (foldl (λ d child, delayed_append d g child) d cs) g' c'.
Proof.
  revert d. induction cs as [|c cs IH]; intros d H; simpl; [done|].
  apply IH. by apply delayed_append_mono.
Qed.

Lemma delayed_extend_has d g cs c :
  c ∈ cs → delayed_has (foldl (λ d child, delayed_append d g child) d cs) g c.
Proof.
  revert d. induction cs as [|c0 cs IH]; intros d; simpl.
  - by intros ?%elem_of_nil.
  - intros [-> | Hin]%elem_of_cons.
    + apply delayed_extend_mono, delayed_append_has.
    + by apply IH.
Qed.

(** ** Loops that cannot raise *)

Lemma returns_bind {A B} (m : M A) (k : A → M B) :
  returns m → (∀ a, returns (k a)) → returns (bind m k).
Proof.
  intros Hm Hk inv. destruct (Hm inv) as (inv1 & a & H1).
  rewrite (bind_OK _ _ _ _ _ H1). apply Hk.
Qed.

Lemma returns_for_each {A} (l : list A) (body : A → M unit) :
  (∀ x, returns (body x)) → returns (for_each l body).
Proof.
  intros Hb. induction l as [|x l IH]; simpl.
  - intros inv. by exists inv, tt.
  - apply returns_bind; [apply Hb | intros _; exact IH].
Qed.

Lemma set_variables_returns data : returns (set_variables data).
Proof.
  unfold set_variables. destruct (variables data) as [vars|].
  - apply returns_for_each. intros kv inv. by eexists _, tt.
  - intros inv. by exists inv, tt.
Qed.

Lemma register_delayed_child_returns group child :
  returns (register_delayed_child group child).
Proof.
  intros inv. unfold register_delayed_child, bind, hosts, get_groups_dict.
  simpl. case_decide; simpl; by eexists _, tt.
Qed.

Lemma register_delayed_returns delayed : returns (register_delayed delayed).
Proof.
  apply returns_for_each. intros entry. apply returns_for_each.
  apply register_delayed_child_returns.
Qed.

(** What every pass of a loop establishes, and growth keeps, holds of all
    elements once the loop has returned. *)
Lemma for_each_establishes {A} (l : list A) (body : A → M unit)
    (P : A → InventoryData → Prop) :
  (∀ x, grows (body x)) →
  (∀ x inv inv', body x inv = (inv', OK tt) → P x inv') →
  (∀ x inv inv', graph_le inv inv' → P x inv → P x inv') →
  ∀ inv inv', for_each l body inv = (inv', OK tt) → ∀ x, x ∈ l → P x inv'.
Proof.
  intros Hg Hb Hm. induction l as [|y l IH]; intros inv inv' H x Hx.
  - by apply elem_of_nil in Hx.
  - simpl in H. apply bind_inv_OK in H as (inv1 & [] & Hy & Hl).
    apply elem_of_cons in Hx as [-> | Hx].
    + apply (Hm _ inv1); [|by eapply Hb].
      pose proof (preserves_for_each graph_le l body Hg inv1) as Hle.
      by rewrite Hl in Hle.
    + by eapply IH.
Qed.

Lemma register_delayed_child_edge group child inv inv' :
  register_delayed_child group child inv = (inv', OK tt) →
  (group, child) ∈ inv_edges inv'.
Proof.
  unfold register_delayed_child, bind, hosts, get_groups_dict. simpl.
  destruct (decide _); simpl; intros [= <-]; simpl;
    apply elem_of_union_l; by apply elem_of_singleton.
Qed.

Lemma register_delayed_child_eq group child inv :
  register_delayed_child group child inv
  = ({| inv_hosts := inv_hosts inv;
        inv_groups :=
          if decide ((child ∉ inv_hosts inv) ∧ (child ∉ inv_groups inv))
          then {[child]} ∪ inv_groups inv else inv_groups inv;
        inv_edges := {[(group, child)]} ∪ inv_edges inv;
        inv_vars := inv_vars inv |}, OK tt).
Proof.
  unfold register_delayed_child, bind, hosts, get_groups_dict. simpl.
  destruct (decide _); reflexivity.
Qed.

(** Lines 96 to 101 attach every delayed child to its group. *)
Lemma register_delayed_edges delayed inv inv' g c :
  register_delayed delayed inv = (inv', OK tt) →
  delayed_has delayed g c → (g, c) ∈ inv_edges inv'.
Proof.
  intros H (cs & Hin & Hc).
  cut (∀ c', c' ∈ (g, cs).2 → ((g, cs).1, c') ∈ inv_edges inv');
    [intros Hall; by apply Hall|].
  eapply (for_each_establishes delayed
    (λ entry, for_each entry.2 (register_delayed_child entry.1))
    (λ entry inv, ∀ c, c ∈ entry.2 → (entry.1, c) ∈ inv_edges inv));
    [ | | |exact H|exact Hin].
  - intros entry. apply preserves_for_each; [apply _|]. intros x.
    apply register_delayed_child_grows.
  - intros entry i i' Hi c' Hc'.
    eapply (for_each_establishes entry.2 (register_delayed_child entry.1)
              (λ c inv, (entry.1, c) ∈ inv_edges inv)); [ | | |exact Hi|exact Hc'].
    + intros x. apply register_delayed_child_grows.
    + intros x i1 i2. apply register_delayed_child_edge.
    + intros x i1 i2 (_&_&He&_) Hx. by apply He.
  - intros entry i i' (_&_&He&_) Hx c' Hc'. apply He. by apply Hx.
Qed.

(** ** One instance *)

Lemma parse_instance_group d data inv :
  parse_instance "ansible_group" d data inv
  = (group <- add_group (name data) ;;
     set_variables data ;;;
     ret (match children data with
          | None => d
          | Some cs => foldl (λ d child, delayed_append d group child) d cs
          end)) inv.
Proof. unfold parse_instance. by rewrite decide_True. Qed.

Lemma parse_instance_host d data inv :
  parse_instance "ansible_host" d data inv
  = (host <- add_host (name data) ;;
     (match groups data with
      | None => ret tt
      | Some gs => for_each gs (register_host_group host)
      end) ;;;
     set_variables data ;;;
     ret d) inv.
Proof.
  unfold parse_instance. rewrite decide_False by done. by rewrite decide_True.
Qed.

Lemma parse_instance_other rtype d data inv :
  rtype ≠ "ansible_group" → rtype ≠ "ansible_host" →
  parse_instance rtype d data inv = (inv, OK d).
Proof. intros. unfold parse_instance. by rewrite !decide_False. Qed.

(** The conflict check of lines 83 and 84, after [add_group] of line 81. *)
Lemma register_host_group_eq host group inv :
  register_host_group host group inv
  = if decide (host ∈ ({[group]} ∪ inv_groups inv : gset string))
    then ((add_group group inv).1, Raise (ConflictError host))
    else ((add_child group host (add_group group inv).1).1, OK tt).
Proof.
  unfold register_host_group, bind, get_groups_dict. simpl.
  destruct (decide _); reflexivity.
Qed.

Lemma register_host_group_OK host group inv inv' :
  register_host_group host group inv = (inv', OK tt) →
  group ∈ inv_groups inv' ∧ (group, host) ∈ inv_edges inv' ∧
  (host ∉ inv_groups inv') ∧ inv_hosts inv' = inv_hosts inv.
Proof.
  rewrite register_host_group_eq. destruct (decide _) as [|Hn]; [done|].
  intros [= <-]. simpl. set_solver.
Qed.

Lemma register_host_group_Raise host group inv inv' e :
  register_host_group host group inv = (inv', Raise e) →
  e = ConflictError host ∧ inv' = (add_group group inv).1 ∧
  host ∈ inv_groups inv'.
Proof.
  rewrite register_host_group_eq. destruct (decide _) as [Hin|]; [|done].
  intros [= <- <-]. done.
Qed.

(** The loop of line 80 returns when the host is no group and is not listed
    among its own groups. *)
Lemma register_host_groups_returns host gs inv :
  host ∉ inv_groups inv → host ∉ gs →
  ∃ inv', for_each gs (register_host_group host) inv = (inv', OK tt).
Proof.
  revert inv. induction gs as [|g gs IH]; intros inv Hinv Hgs; simpl.
  - by exists inv.
  - apply not_elem_of_cons in Hgs as [Hne Hgs].
    unfold bind. rewrite register_host_group_eq, decide_False by set_solver.
    apply IH; [simpl; set_solver | done].
Qed.

(** Once the loop of line 80 has returned, every listed group exists and
    has the host as a child. *)
Lemma register_host_groups_OK host gs inv inv' g :
  for_each gs (register_host_group host) inv = (inv', OK tt) → g ∈ gs →
  g ∈ inv_groups inv' ∧ (g, host) ∈ inv_edges inv'.
Proof.
  intros H Hg.
  eapply (for_each_establishes gs (register_host_group host)
            (λ g inv, g ∈ inv_groups inv ∧ (g, host) ∈ inv_edges inv));
    [ | | |exact H|exact Hg].
  - intros x. apply register_host_group_grows.
  - intros x i i' Hx. apply register_host_group_OK in Hx. tauto.
  - intros x i i' (_&Hgr&He&_) [? ?]. split; [by apply Hgr | by apply He].
Qed.

(** A group instance never raises. *)
Lemma parse_instance_group_returns d data : returns (parse_instance "ansible_group" d data).
Proof.
  intros inv. rewrite parse_instance_group.
  unfold bind at 1. simpl.
  destruct (set_variables_returns data
    {| inv_hosts := inv_hosts inv; inv_groups := {[name data]} ∪ inv_groups inv;
       inv_edges := inv_edges inv; inv_vars := inv_vars inv |}) as (inv' & [] & H).
  rewrite (bind_OK _ _ _ _ _ H). by eexists _, _.
Qed.

(** The delayed mapping an instance returns extends the one it was given. *)
Lemma parse_instance_delayed_mono rtype d data inv inv' d' g c :
  parse_instance rtype d data inv = (inv', OK d') →
  delayed_has d g c → delayed_has d' g c.
Proof.
  destruct (decide (rtype = "ansible_group")) as [->|Hng].
  - rewrite parse_instance_group.
    intros (inv1 & group & Hadd & Hk)%bind_inv_OK.
    apply bind_inv_OK in Hk as (inv2 & [] & _ & Hret).
    injection Hadd as <- <-. injection Hret as _ <-.
    destruct (children data); [apply delayed_extend_mono | done].
  - destruct (decide (rtype = "ansible_host")) as [->|Hnh].
    + rewrite parse_instance_host.
      intros (inv1 & host & _ & Hk)%bind_inv_OK.
      apply bind_inv_OK in Hk as (inv2 & [] & _ & Hk).
      apply bind_inv_OK in Hk as (inv3 & [] & _ & Hret).
      by injection Hret as _ <-.
    + rewrite parse_instance_other by done. by intros [= _ <-].
Qed.

Lemma parse_items_delayed_mono its d inv inv' d' g c :
  parse_items its d inv = (inv', OK d') →
  delayed_has d g c → delayed_has d' g c.
Proof.
  unfold parse_items. revert d inv.
  induction its as [|it its IH]; intros d inv; simpl.
  - by intros [= _ <-].
  - intros (inv1 & d1 & H1 & H)%bind_inv_OK Hd.
    eapply IH; [exact H|]. by eapply parse_instance_delayed_mono.
Qed.

(** What a group instance leaves behind once it has returned. *)
Lemma parse_instance_group_OK d data inv inv' d' :
  parse_instance "ansible_group" d data inv = (inv', OK d') →
  name data ∈ inv_groups inv' ∧
  ∀ cs c, children data = Some cs → c ∈ cs → delayed_has d' (name data) c.
Proof.
  rewrite parse_instance_group.
  intros (inv1 & group & Hadd & H)%bind_inv_OK.
  apply bind_inv_OK in H as (inv2 & [] & Hv & Hret).
  injection Hadd as <- <-. injection Hret as <- <-.
  split.
  - apply (preserves_run graph_le _ _ _ _ (set_variables_grows data)) in Hv
      as (_&Hg&_).
    apply Hg. simpl. set_solver.
  - intros cs c -> Hc. by apply delayed_extend_has.
Qed.

(** What a host instance leaves behind once it has returned. *)
Lemma parse_instance_host_OK d data inv inv' d' :
  parse_instance "ansible_host" d data inv = (inv', OK d') →
  name data ∈ inv_hosts inv' ∧
  ∀ gs g, groups data = Some gs → g ∈ gs →
    g ∈ inv_groups inv' ∧ (g, name data) ∈ inv_edges inv'.
Proof.
  rewrite parse_instance_host.
  intros (inv1 & host & Hadd & H)%bind_inv_OK.
  apply bind_inv_OK in H as (inv2 & [] & Hg & H).
  apply bind_inv_OK in H as (inv3 & [] & Hv & Hret).
  injection Hadd as <- <-. injection Hret as <- <-.
  apply (preserves_run graph_le _ _ _ _ (set_variables_grows data)) in Hv
    as (Hh&Hgr&He&_).
  split.
  - apply Hh. destruct (groups data) as [gs|].
    + apply (preserves_run graph_le) in Hg as (Hh'&_).
      * apply Hh'. simpl. set_solver.
      * apply preserves_for_each; [apply _|]. apply register_host_group_grows.
    + injection Hg as <-. simpl. set_solver.
  - intros gs g Hgs Hing. rewrite Hgs in Hg.
    destruct (register_host_groups_OK _ _ _ _ g Hg Hing). split; auto.
Qed.

(** ** Strings *)

Lemma string_app_nil_r (s : string) : s +:+ "" = s.
Proof.
  induction s as [|a s IH]; [reflexivity|].
  unfold String.app; fold String.app. by rewrite IH.
Qed.

Lemma string_app_assoc (s t u : string) : (s +:+ t) +:+ u = s +:+ t +:+ u.
Proof.
  induction s as [|a s IH]; [reflexivity|].
  unfold String.app; fold String.app. by rewrite IH.
Qed.

Lemma contains_suffix (s t : string) : contains (s +:+ t) t.
Proof. exists s, "". by rewrite string_app_nil_r. Qed.

Lemma contains_app_r (s t u : string) : contains t u → contains (s +:+ t) u.
Proof.
  intros (b & a & ->). exists (s +:+ b), a. by rewrite string_app_assoc.
Qed.

Lemma contains_app_l (s t u : string) : contains s u → contains (s +:+ t) u.
Proof.
  intros (b & a & ->). exists b, (a +:+ t). by rewrite !string_app_assoc.
Qed.

Lemma contains_refl (s : string) : contains s s.
Proof. exists "", "". by rewrite string_app_nil_r. Qed.

Lemma contains_empty (s : string) : contains s "".
Proof. by exists "", s. Qed.

(** ** The resolver, from the instance it is about to read *)

Lemma parse_resources_at rs before it after inv0 inv1 d1 :
  items rs = before ++ it :: after →
  parse_items before [] inv0 = (inv1, OK d1) →
  parse_resources rs inv0
  = (d2 <- parse_instance it.1 d1 it.2 ;;
     d <- parse_items after d2 ;;
     register_delayed d) inv1.
Proof.
  intros Hits Hbefore. rewrite parse_resources_items, Hits.
  unfold parse_items in *. unfold bind at 1. rewrite for_fold_app.
  rewrite (bind_OK _ _ _ _ _ Hbefore). simpl. unfold bind.
  destruct (parse_instance it.1 d1 it.2 inv1) as [inv2 [d2|e]]; reflexivity.
Qed.

Lemma rest_grows after d : grows (d' <- parse_items after d ;; register_delayed d').
Proof. repeat grows_step. Qed.

(** ** Conflicts between a host name and a group name *)

(** The loop of line 80 raises as soon as the host is, or becomes, a group. *)
Lemma register_host_groups_raises host gs inv :
  (host ∈ inv_groups inv ∧ gs ≠ []) ∨ host ∈ gs →
  ∃ inv', for_each gs (register_host_group host) inv
          = (inv', Raise (ConflictError host)).
Proof.
  revert inv. induction gs as [|g gs IH]; intros inv Hc.
  - destruct Hc as [[_ ?] | ?%elem_of_nil]; done.
  - simpl. unfold bind. rewrite register_host_group_eq.
    destruct (decide (host ∈ ({[g]} ∪ inv_groups inv : gset string))) as [|Hn].
    + by eexists.
    + apply IH. right.
      destruct Hc as [[? _] | [-> | ?]%elem_of_cons]; [set_solver | set_solver | done].
Qed.

(** A host instance raises exactly the conflict of line 84, when it lists a
    group and its name is a group already or is among the groups it lists. *)
Lemma parse_instance_host_raises d data gs inv :
  groups data = Some gs → gs ≠ [] →
  name data ∈ inv_groups inv ∨ name data ∈ gs →
  ∃ inv', parse_instance "ansible_host" d data inv
          = (inv', Raise (ConflictError (name data))).
Proof.
  intros Hgs Hne Hc. rewrite parse_instance_host, Hgs.
  unfold bind at 1 2. simpl.
  destruct (register_host_groups_raises (name data) gs
    {| inv_hosts := {[name data]} ∪ inv_hosts inv; inv_groups := inv_groups inv;
       inv_edges := inv_edges inv; inv_vars := inv_vars inv |}) as (inv' & ->).
  - simpl. tauto.
  - by exists inv'.
Qed.

(** A host instance returns when its name is no group and it does not list
    itself. *)
Lemma parse_instance_host_returns d data gs inv :
  groups data = Some gs →
  name data ∉ inv_groups inv → name data ∉ gs →
  ∃ inv', parse_instance "ansible_host" d data inv = (inv', OK d).
Proof.
  intros Hgs Hn Hni. rewrite parse_instance_host, Hgs.
  unfold bind at 1 2. simpl.
  destruct (register_host_groups_returns (name data) gs
    {| inv_hosts := {[name data]} ∪ inv_hosts inv; inv_groups := inv_groups inv;
       inv_edges := inv_edges inv; inv_vars := inv_vars inv |}) as (inv1 & ->);
    [done..|].
  destruct (set_variables_returns data inv1) as (inv2 & [] & Hv).
  rewrite (bind_OK _ _ _ _ _ Hv). by exists inv2.
Qed.

(** C1, the claim as stated fails.  A host named X is handled first, then a
    group that lists X among its children: when the delayed children are
    registered X is a host already, and resolution returns without any
    error, with X attached as a child of the group. *)
Lemma host_child_is_no_conflict :
  (for_fold [host_resource "X" None None] parse_resource [] empty_inventory).1
    = {| inv_hosts := {["X"]}; inv_groups := ∅; inv_edges := ∅; inv_vars := ∅ |} ∧
  parse_resources host_then_group empty_inventory
    = ({| inv_hosts := {["X"]}; inv_groups := {["G"]};
          inv_edges := {[("G", "X")]}; inv_vars := ∅ |}, OK tt) ∧
  (parse_resources host_then_group empty_inventory).2 ≠ Raise (ConflictError "X").
Proof. split; [|split]; [vm_compute; reflexivity.. | vm_compute; discriminate]. Qed.

(** C1, amended.  Resolution fails with the ConflictError naming X when a
    host instance named X that lists at least one group is handled while X
    is a group name already, or X is among the groups it lists.  A host X
    that a group merely lists among its children is no conflict: once the
    scan of the resources has returned, the registration of the delayed
    children returns too and X is a child of that group. *)
Theorem conflict_detection :
  (∀ rs before data after gs inv0 inv1 d1,
     items rs = before ++ ("ansible_host", data) :: after →
     groups data = Some gs → gs ≠ [] →
     parse_items before [] inv0 = (inv1, OK d1) →
     name data ∈ inv_groups inv1 ∨ name data ∈ gs →
     (parse_resources rs inv0).2 = Raise (ConflictError (name data))) ∧
  (∀ rs inv0 inv1 d1,
     for_fold rs parse_resource [] inv0 = (inv1, OK d1) →
     ∃ inv', parse_resources rs inv0 = (inv', OK tt) ∧
       ∀ data cs X, ("ansible_group", data) ∈ items rs →
         children data = Some cs → X ∈ cs →
         (name data, X) ∈ inv_edges inv' ∧
         (X ∈ inv_hosts inv1 → X ∈ inv_hosts inv')).
Proof.
  split.
  - intros rs before data after gs inv0 inv1 d1 Hits Hgs Hne Hbefore Hc.
    rewrite (parse_resources_at _ _ _ _ _ _ _ Hits Hbefore). simpl.
    destruct (parse_instance_host_raises d1 data gs inv1 Hgs Hne Hc) as (inv' & H).
    by rewrite (bind_Raise _ _ _ _ _ H).
  - intros rs inv0 inv1 d1 Hscan.
    destruct (register_delayed_returns d1 inv1) as (inv' & [] & Hreg).
    exists inv'. split.
    + unfold parse_resources. by rewrite (bind_OK _ _ _ _ _ Hscan).
    + intros data cs X Hin Hcs HX. split.
      * eapply register_delayed_edges; [exact Hreg|].
        rewrite scan_items in Hscan.
        apply list_elem_of_split in Hin as (l1 & l2 & Hin).
        unfold parse_items in Hscan. rewrite Hin in Hscan.
        apply for_fold_split_OK in Hscan as (i1 & s1 & i2 & s2 & _ & Hx & Hl2).
        apply parse_instance_group_OK in Hx as [_ Hx].
        eapply parse_items_delayed_mono; [exact Hl2|]. by eapply Hx.
      * intros HX1.
        apply (preserves_run graph_le _ _ _ _ (register_delayed_grows d1)) in Hreg
          as (Hh&_). by apply Hh.
Qed.

Lemma conflict_detection_witness :
  (parse_resources
     [ group_resource "web" None None; host_resource "web" (Some ["prod"]) None ]
     empty_inventory).2 = Raise (ConflictError "web") ∧
  ∃ inv', parse_resources host_then_group empty_inventory = (inv', OK tt) ∧
    ("G", "X") ∈ inv_edges inv'.
Proof.
  split.
  - apply (proj1 conflict_detection
      [ group_resource "web" None None; host_resource "web" (Some ["prod"]) None ]
      [ ("ansible_group",
         {| name := "web"; children := None; groups := None; variables := None |}) ]
      {| name := "web"; children := None; groups := Some ["prod"];
         variables := None |}
      [] ["prod"] empty_inventory
      {| inv_hosts := ∅; inv_groups := {["web"]}; inv_edges := ∅; inv_vars := ∅ |}
      []).
    + vm_compute. reflexivity.
    + reflexivity.
    + discriminate.
    + vm_compute. reflexivity.
    + left. vm_compute. reflexivity.
  - destruct (proj2 conflict_detection host_then_group empty_inventory
      {| inv_hosts := {["X"]}; inv_groups := {["G"]}; inv_edges := ∅; inv_vars := ∅ |}
      [("G", ["X"])]) as (inv' & Hrun & Hedge).
    + vm_compute. reflexivity.
    + exists inv'. split; [exact Hrun|].
      apply (Hedge {| name := "G"; children := Some ["X"]; groups := None;
                      variables := None |} ["X"] "X").
      * vm_compute. apply list_elem_of_In. right. left. reflexivity.
      * reflexivity.
      * apply list_elem_of_In. left. reflexivity.
Defined.

(** ** Hosts and the groups they list *)

(** C3.  A host instance of the recognised provider lists the groups [gs],
    and when it is handled its name is no group name, nor one of [gs] (the
    check of line 83 runs after [add_group]).  Then in the sink that
    resolution leaves behind every [g] of [gs] is a group and the host is a
    child of [g]; for the claim, [gs] is the one group g. *)
Theorem host_groups_registered rs before data after gs g inv0 inv1 d1 :
  items rs = before ++ ("ansible_host", data) :: after →
  groups data = Some gs → g ∈ gs →
  parse_items before [] inv0 = (inv1, OK d1) →
  name data ∉ inv_groups inv1 → name data ∉ gs →
  g ∈ inv_groups (parse_resources rs inv0).1 ∧
  (g, name data) ∈ inv_edges (parse_resources rs inv0).1 ∧
  name data ∈ inv_hosts (parse_resources rs inv0).1.
Proof.
  intros Hits Hgs Hg Hbefore Hn Hni.
  rewrite (parse_resources_at _ _ _ _ _ _ _ Hits Hbefore). simpl.
  destruct (parse_instance_host_returns d1 data gs inv1 Hgs Hn Hni) as (inv2 & H).
  rewrite (bind_OK _ _ _ _ _ H).
  apply parse_instance_host_OK in H as (Hh & Hl).
  destruct (Hl gs g Hgs Hg) as [Hgr He].
  destruct (rest_grows after d1 inv2) as (Hh' & Hgr' & He' & _).
  split; [by apply Hgr' | split; [by apply He' | by apply Hh']].
Qed.

Lemma host_groups_registered_witness :
  "g" ∈ inv_groups (parse_resources [host_resource "h" (Some ["g"]) None]
                      empty_inventory).1 ∧
  ("g", "h") ∈ inv_edges (parse_resources [host_resource "h" (Some ["g"]) None]
                            empty_inventory).1 ∧
  "h" ∈ inv_hosts (parse_resources [host_resource "h" (Some ["g"]) None]
                     empty_inventory).1.
Proof.
  apply (host_groups_registered [host_resource "h" (Some ["g"]) None] []
    {| name := "h"; children := None; groups := Some ["g"]; variables := None |}
    [] ["g"] "g" empty_inventory empty_inventory []).
  - vm_compute. reflexivity.
  - reflexivity.
  - apply list_elem_of_In. left. reflexivity.
  - reflexivity.
  - vm_compute. discriminate.
  - intros H%list_elem_of_In. simpl in H. destruct H as [H|[]]. discriminate H.
Defined.

(** ** Children whose kind is not known when their group is read *)

(** Once the scan has returned, a group instance has registered its group
    and recorded each of its children. *)
Lemma parse_items_group_OK its d inv inv' d' data :
  parse_items its d inv = (inv', OK d') →
  ("ansible_group", data) ∈ its →
  name data ∈ inv_groups inv' ∧
  ∀ cs c, children data = Some cs → c ∈ cs → delayed_has d' (name data) c.
Proof.
  intros Hrun (l1 & l2 & ->)%list_elem_of_split.
  unfold parse_items in Hrun.
  apply for_fold_split_OK in Hrun as (i1 & s1 & i2 & s2 & _ & Hx & Hl2).
  apply parse_instance_group_OK in Hx as [Hgr Hd]. split.
  - apply (preserves_run graph_le _ _ _ _ (parse_items_grows l2 s2)) in Hl2
      as (_ & Hgr' & _). by apply Hgr'.
  - intros cs c Hcs Hc. eapply parse_items_delayed_mono; [exact Hl2|].
    by eapply Hd.
Qed.

(** A group that lists a child, and a group declared under the child's
    name anywhere in the resource list: after a resolution that returned the
    child is a group and a child of the first group. *)
Lemma deferred_child_resolved rs inv0 inv' a b cs :
  parse_resources rs inv0 = (inv', OK tt) →
  ("ansible_group", a) ∈ items rs → children a = Some cs → name b ∈ cs →
  ("ansible_group", b) ∈ items rs →
  name b ∈ inv_groups inv' ∧ (name a, name b) ∈ inv_edges inv'.
Proof.
  rewrite parse_resources_items.
  intros (inv1 & d1 & Hscan & Hreg)%bind_inv_OK Ha Hcs Hb Hbin.
  destruct (parse_items_group_OK _ _ _ _ _ a Hscan Ha) as [_ Hd].
  destruct (parse_items_group_OK _ _ _ _ _ b Hscan Hbin) as [Hgr _].
  split.
  - apply (preserves_run graph_le _ _ _ _ (register_delayed_grows d1)) in Hreg
      as (_ & Hgr' & _). by apply Hgr'.
  - eapply register_delayed_edges; [exact Hreg|]. by eapply Hd.
Qed.

(** The smallest document of the scenario, in either order, leaves the same
    sink behind. *)
Lemma forward_reference_minimal A B inv :
  parse_resources [group_resource A (Some [B]) None; group_resource B None None] inv
  = ({| inv_hosts := inv_hosts inv;
        inv_groups := {[A; B]} ∪ inv_groups inv;
        inv_edges := {[(A, B)]} ∪ inv_edges inv;
        inv_vars := inv_vars inv |}, OK tt) ∧
  parse_resources [group_resource B None None; group_resource A (Some [B]) None] inv
  = ({| inv_hosts := inv_hosts inv;
        inv_groups := {[A; B]} ∪ inv_groups inv;
        inv_edges := {[(A, B)]} ∪ inv_edges inv;
        inv_vars := inv_vars inv |}, OK tt).
Proof.
  unfold parse_resources, bind, parse_resource, group_resource. simpl.
  unfold register_delayed. simpl. unfold bind.
  rewrite !register_delayed_child_eq. simpl.
  rewrite !decide_False by set_solver.
  unfold ret. split; do 2 f_equal; set_solver.
Qed.

(** C2.  A group instance [a] has the children [[name b]] and [b] is a
    group instance declared after it or before it.  After a resolution that
    returned, [name b] is a group and a child of [name a], in both orders of
    declaration; and the document made of just these two resources leaves
    the same sink behind in both orders. *)
Theorem deferred_resolution :
  (∀ rs l1 l2 l3 a b inv0 inv',
     children a = Some [name b] →
     items rs = l1 ++ ("ansible_group", a) :: l2 ++ ("ansible_group", b) :: l3 ∨
     items rs = l1 ++ ("ansible_group", b) :: l2 ++ ("ansible_group", a) :: l3 →
     parse_resources rs inv0 = (inv', OK tt) →
     name b ∈ inv_groups inv' ∧ (name a, name b) ∈ inv_edges inv') ∧
  (∀ A B inv,
     parse_resources [group_resource A (Some [B]) None; group_resource B None None] inv
     = parse_resources [group_resource B None None; group_resource A (Some [B]) None] inv
     ∧ (parse_resources
          [group_resource A (Some [B]) None; group_resource B None None] inv).2
       = OK tt).
Proof.
  split.
  - intros rs l1 l2 l3 a b inv0 inv' Hcs Hits Hrun.
    eapply (deferred_child_resolved rs inv0 inv' a b [name b]); try done.
    + destruct Hits as [-> | ->]; set_solver.
    + set_solver.
    + destruct Hits as [-> | ->]; set_solver.
  - intros A B inv. destruct (forward_reference_minimal A B inv) as [-> ->]. done.
Qed.

Lemma deferred_resolution_witness :
  "B" ∈ inv_groups
    (parse_resources
       [group_resource "A" (Some ["B"]) None; group_resource "B" None None]
       empty_inventory).1 ∧
  ("A", "B") ∈ inv_edges
    (parse_resources
       [group_resource "A" (Some ["B"]) None; group_resource "B" None None]
       empty_inventory).1.
Proof.
  apply (proj1 deferred_resolution
    [group_resource "A" (Some ["B"]) None; group_resource "B" None None]
    [] [] []
    {| name := "A"; children := Some ["B"]; groups := None; variables := None |}
    {| name := "B"; children := None; groups := None; variables := None |}
    empty_inventory).
  - reflexivity.
  - left. vm_compute. reflexivity.
  - vm_compute. reflexivity.
Defined.

(** ** Aborted resolutions *)

#[local] Instance same_skeleton_preorder : PreOrder same_skeleton.
Proof.
  split.
  - intros inv. by repeat split.
  - intros a b c (?&?&?) (?&?&?). repeat split; congruence.
Qed.

Lemma set_variables_skeleton data : preserves same_skeleton (set_variables data).
Proof.
  unfold set_variables. destruct (variables data).
  - apply preserves_for_each; [apply _|]. intros kv inv. by repeat split.
  - apply preserves_ret. apply _.
Qed.

(** An instance that raises is a host instance, stopped by the check of
    line 83 at one of the groups it lists; the sink is the one that
    [add_host], the groups before that one, and the last [add_group] have
    produced. *)
Lemma parse_instance_Raise rtype d data inv inv' e :
  parse_instance rtype d data inv = (inv', Raise e) →
  rtype = "ansible_host" ∧ e = ConflictError (name data) ∧
  ∃ gdone g grest,
    groups data = Some (gdone ++ g :: grest) ∧
    (host <- add_host (name data) ;;
     for_each gdone (register_host_group host) ;;;
     add_group g) inv = (inv', OK g).
Proof.
  destruct (decide (rtype = "ansible_group")) as [->|Hng].
  { intros H. destruct (parse_instance_group_returns d data inv) as (?&?&H').
    congruence. }
  destruct (decide (rtype = "ansible_host")) as [->|Hnh].
  2: { rewrite parse_instance_other by done. discriminate. }
  rewrite parse_instance_host. unfold bind at 1. simpl.
  intros [H | (inv2 & [] & _ & H)]%bind_inv_Raise.
  - destruct (groups data) as [gs|]; [|discriminate].
    apply for_each_inv_Raise in H as (gdone & g & grest & inv1 & -> & Hdone & Hg).
    apply register_host_group_Raise in Hg as (-> & -> & _).
    split; [done|]. split; [done|]. exists gdone, g, grest. split; [done|].
    unfold bind at 1. simpl. by rewrite (bind_OK _ _ _ _ _ Hdone).
  - apply bind_inv_Raise in H as [H | (inv3 & [] & _ & H)]; [|discriminate].
    destruct (set_variables_returns data inv2) as (?&?&H'). congruence.
Qed.

(** C9.  A resolution that raised did so at a host instance, with the
    ConflictError naming it, and nothing is rolled back: the sink it leaves
    behind is the sink produced by every call made up to the failing check,
    namely the instances handled before ([inv1]), then [add_host], the
    groups listed before the offending one, and the [add_group] of line 81.
    It contains every host, group, edge and bound variable of the sink it
    started from and of [inv1]. *)
Theorem no_rollback_on_conflict rs inv0 inv' e :
  parse_resources rs inv0 = (inv', Raise e) →
  ∃ before data after inv1 d1 gdone g grest,
    items rs = before ++ ("ansible_host", data) :: after ∧
    groups data = Some (gdone ++ g :: grest) ∧
    e = ConflictError (name data) ∧
    parse_items before [] inv0 = (inv1, OK d1) ∧
    (host <- add_host (name data) ;;
     for_each gdone (register_host_group host) ;;;
     add_group g) inv1 = (inv', OK g) ∧
    graph_le inv0 inv1 ∧ graph_le inv1 inv'.
Proof.
  rewrite parse_resources_items.
  intros [H | (inv1 & d1 & _ & H)]%bind_inv_Raise.
  2: { destruct (register_delayed_returns d1 inv1) as (?&?&H'). congruence. }
  unfold parse_items in H.
  apply for_fold_inv_Raise in H as (before & [rtype data] & after & inv1 & d1
                                     & Hits & Hbefore & Hx).
  simpl in Hx.
  pose proof (preserves_run graph_le _ _ _ _
                (parse_instance_grows rtype d1 data) Hx) as Hle'.
  apply parse_instance_Raise in Hx as (-> & -> & gdone & g & grest & Hgs & Hrun).
  exists before, data, after, inv1, d1, gdone, g, grest.
  do 5 (split; [done|]). split; [|done].
  by apply (preserves_run graph_le _ _ _ _ (parse_items_grows before [])) in Hbefore.
Qed.

Lemma no_rollback_on_conflict_witness :
  ∃ before data after inv1 d1 gdone g grest,
    items conflict_after_mutations
      = before ++ ("ansible_host", data) :: after ∧
    groups data = Some (gdone ++ g :: grest) ∧
    ConflictError "web" = ConflictError (name data) ∧
    parse_items before [] empty_inventory = (inv1, OK d1) ∧
    (host <- add_host (name data) ;;
     for_each gdone (register_host_group host) ;;;
     add_group g) inv1
      = ({| inv_hosts := {["db"; "web"]}; inv_groups := {["web"; "prod"]};
            inv_edges := ∅;
            inv_vars := {[ ("web", "tier") := JString "front" ]} |}, OK g) ∧
    graph_le empty_inventory inv1 ∧
    graph_le inv1
      {| inv_hosts := {["db"; "web"]}; inv_groups := {["web"; "prod"]};
         inv_edges := ∅;
         inv_vars := {[ ("web", "tier") := JString "front" ]} |}.
Proof.
  apply (no_rollback_on_conflict conflict_after_mutations empty_inventory).
  vm_compute. reflexivity.
Defined.

(** A host instance without groups only adds the host and sets its
    variables. *)
Lemma parse_instance_host_no_groups d data inv :
  groups data = None →
  ∃ inv2,
    parse_instance "ansible_host" d data inv = (inv2, OK d) ∧
    inv_hosts inv2 = {[name data]} ∪ inv_hosts inv ∧
    inv_groups inv2 = inv_groups inv ∧
    inv_edges inv2 = inv_edges inv.
Proof.
  intros Hgs. rewrite parse_instance_host, Hgs. unfold bind at 1 2. simpl.
  destruct (set_variables_returns data
    {| inv_hosts := {[name data]} ∪ inv_hosts inv; inv_groups := inv_groups inv;
       inv_edges := inv_edges inv; inv_vars := inv_vars inv |})
    as (inv2 & [] & Hv).
  exists inv2. rewrite (bind_OK _ _ _ _ _ Hv). split; [done|].
  apply (preserves_run same_skeleton _ _ _ _ (set_variables_skeleton data)) in Hv
    as (Hh & Hgr & He). simpl in *. done.
Qed.

(** C10.  A host instance whose groups attribute is null is handled
    without the check of line 83, whatever the sink holds: it returns, the
    host is added, the group names are what they were (so a host whose name
    is a group name already is a host and a group afterwards), and
    resolution goes on with the instances after it. *)
Theorem host_without_groups_is_unchecked rs before data after inv0 inv1 d1 :
  items rs = before ++ ("ansible_host", data) :: after →
  groups data = None →
  parse_items before [] inv0 = (inv1, OK d1) →
  ∃ inv2,
    parse_instance "ansible_host" d1 data inv1 = (inv2, OK d1) ∧
    name data ∈ inv_hosts inv2 ∧
    inv_groups inv2 = inv_groups inv1 ∧
    parse_resources rs inv0
    = (d <- parse_items after d1 ;; register_delayed d) inv2.
Proof.
  intros Hits Hgs Hbefore.
  destruct (parse_instance_host_no_groups d1 data inv1 Hgs)
    as (inv2 & Hrun & Hh & Hgr & _).
  exists inv2. split; [done|]. split; [rewrite Hh; set_solver|]. split; [done|].
  rewrite (parse_resources_at _ _ _ _ _ _ _ Hits Hbefore). simpl.
  by rewrite (bind_OK _ _ _ _ _ Hrun).
Qed.

Lemma host_without_groups_is_unchecked_witness :
  ∃ inv2,
    parse_instance "ansible_host" []
      {| name := "web"; children := None; groups := None; variables := None |}
      {| inv_hosts := ∅; inv_groups := {["web"]}; inv_edges := ∅; inv_vars := ∅ |}
    = (inv2, OK []) ∧
    "web" ∈ inv_hosts inv2 ∧
    inv_groups inv2 = {["web"]} ∧
    parse_resources host_named_like_a_group empty_inventory
    = (d <- parse_items [] [] ;; register_delayed d) inv2.
Proof.
  refine (host_without_groups_is_unchecked host_named_like_a_group
    [ ("ansible_group",
       {| name := "web"; children := None; groups := None; variables := None |}) ]
    {| name := "web"; children := None; groups := None; variables := None |}
    [] empty_inventory
    {| inv_hosts := ∅; inv_groups := {["web"]}; inv_edges := ∅; inv_vars := ∅ |}
    [] _ _ _).
  - vm_compute. reflexivity.
  - reflexivity.
  - vm_compute. reflexivity.
Defined.

(** ** A worked scenario *)

(** C4.  One group [web] with children [["app1"]] and one host [app1] with
    null groups and the variable [port = 8080]: resolution returns, and the
    sink holds the group [web], the host [app1], [app1] as a child of [web]
    and [port] bound to 8080 on [app1], and nothing else. *)
Theorem web_app1_resolved :
  parse_resources web_app1 empty_inventory
  = ({| inv_hosts := {["app1"]}; inv_groups := {["web"]};
        inv_edges := {[("web", "app1")]};
        inv_vars := {[ ("app1", "port") := JNumber 8080 ]} |}, OK tt) ∧
  "web" ∈ inv_groups (parse_resources web_app1 empty_inventory).1 ∧
  "app1" ∈ inv_hosts (parse_resources web_app1 empty_inventory).1 ∧
  ("web", "app1") ∈ inv_edges (parse_resources web_app1 empty_inventory).1 ∧
  inv_vars (parse_resources web_app1 empty_inventory).1 !! ("app1", "port")
    = Some (JNumber 8080).
Proof. repeat split; vm_compute; reflexivity. Qed.

(** With no workspace marker, [parse] resolves the resources of the
    document read from the default state path. *)
Lemma parse_default_state json_loads fs cwd text document :
  fs (cwd </> ".terraform" </> "environment") = None →
  fs (cwd </> "terraform.tfstate") = Some text →
  json_loads text = inr document →
  ∀ inv, parse json_loads fs cwd inv = parse_resources (resources document) inv.
Proof.
  intros Henv Hstate Hjson inv.
  unfold parse, get_tf_state, locate_state_file. by rewrite Henv, Hstate, Hjson.
Qed.

(** ** Resources of other providers *)

Lemma items_foreign rs :
  Forall (λ r, default "" (provider r) ≠ ANSIBLE_PROVIDER) rs → items rs = [].
Proof.
  induction 1 as [|r rs Hr _ IH]; [done|].
  unfold items in *. simpl. by rewrite decide_False, IH.
Qed.

(** C5.  When no resource has the provider string of line 61 (a resource
    without a provider key counts as the empty string), resolution returns
    and leaves any sink exactly as it found it; run against the empty sink,
    the graph has no host, no group, no edge and no variable. *)
Theorem foreign_providers_leave_no_trace rs :
  Forall (λ r, default "" (provider r) ≠ ANSIBLE_PROVIDER) rs →
  (∀ inv, parse_resources rs inv = (inv, OK tt)) ∧
  fresh (parse_resources rs empty_inventory).1.
Proof.
  intros Hrs.
  assert (∀ inv, parse_resources rs inv = (inv, OK tt)) as Hrun.
  { intros inv. rewrite parse_resources_items, (items_foreign rs Hrs). done. }
  split; [done|]. rewrite Hrun. by repeat split.
Qed.

Lemma foreign_providers_leave_no_trace_witness :
  (∀ inv, parse_resources unrelated_resources inv = (inv, OK tt)) ∧
  fresh (parse_resources unrelated_resources empty_inventory).1.
Proof.
  apply (foreign_providers_leave_no_trace unrelated_resources).
  repeat constructor; vm_compute; discriminate.
Defined.

(** ** The state locator *)

(** C6.  When the workspace marker exists and its text is not "default",
    the candidate is [cwd/terraform.tfstate.d/<workspace>/terraform.tfstate];
    when the marker is absent or its text is "default", the candidate is
    [cwd/terraform.tfstate].  The candidate is the one path [get_tf_state]
    reads. *)
Theorem locate_state_file_selects json_loads fs cwd :
  (∀ w, fs (cwd </> ".terraform" </> "environment") = Some w → w ≠ "default" →
     (locate_state_file fs cwd).2
     = cwd </> "terraform.tfstate.d" </> w </> "terraform.tfstate") ∧
  (fs (cwd </> ".terraform" </> "environment") = None ∨
   fs (cwd </> ".terraform" </> "environment") = Some "default" →
     (locate_state_file fs cwd).2 = cwd </> "terraform.tfstate") ∧
  (∀ text, fs (locate_state_file fs cwd).2 = Some text →
     get_tf_state json_loads fs cwd
     = match json_loads text with
       | inr document => OK document
       | inl reason => Raise (AnsiblePluginError (load_failure_message reason))
       end).
Proof.
  split; [|split].
  - intros w Henv Hw. unfold locate_state_file. rewrite Henv.
    by rewrite decide_True.
  - intros [Henv | Henv]; unfold locate_state_file; rewrite Henv; [done|].
    rewrite decide_False; [done|]. by intros [].
  - intros text. unfold get_tf_state.
    destruct (locate_state_file fs cwd) as [env_name state_file]. simpl.
    by intros ->.
Qed.

Lemma locate_state_file_selects_witness :
  (locate_state_file staging_without_state ["srv"; "infra"]).2
  = ["srv"; "infra"; "terraform.tfstate.d"; "staging"; "terraform.tfstate"].
Proof.
  refine (proj1 (locate_state_file_selects (λ _, inl "") staging_without_state
                   ["srv"; "infra"]) "staging" _ _).
  - vm_compute. reflexivity.
  - discriminate.
Defined.

(** C7.  When the candidate path does not exist, [get_tf_state] raises an
    error whose message contains the posix form of the candidate path and,
    when a workspace name was read, that name (introduced by "for
    workspace" when it is not empty).  With the marker text "staging" the
    message names the workspace staging and the path
    [cwd/terraform.tfstate.d/staging/terraform.tfstate]. *)
Theorem missing_state_is_reported json_loads fs cwd :
  fs (locate_state_file fs cwd).2 = None →
  ∃ msg,
    get_tf_state json_loads fs cwd = Raise (AnsiblePluginError msg) ∧
    contains msg (as_posix (locate_state_file fs cwd).2) ∧
    (∀ w, fs (cwd </> ".terraform" </> "environment") = Some w →
       contains msg w ∧
       (w ≠ "" → contains msg (" for workspace " +:+ w))) ∧
    (fs (cwd </> ".terraform" </> "environment") = Some "staging" →
       msg = "Could not locate the terraform state file for workspace staging"
             +:+ ". Expected at: "
             +:+ as_posix (cwd </> "terraform.tfstate.d" </> "staging"
                               </> "terraform.tfstate")).
Proof.
  intros Hmissing.
  exists (not_found_message (locate_state_file fs cwd).1 (locate_state_file fs cwd).2).
  split; [|split; [|split]].
  - unfold get_tf_state.
    destruct (locate_state_file fs cwd) as [env_name state_file]. simpl in *.
    by rewrite Hmissing.
  - unfold not_found_message. do 3 apply contains_app_r. apply contains_refl.
  - intros w Henv.
    assert ((locate_state_file fs cwd).1 = Some w) as ->.
    { unfold locate_state_file. rewrite Henv. by destruct (decide _). }
    unfold not_found_message, env_string.
    destruct (decide (w = "")) as [-> | Hw].
    + split; [apply contains_empty | done].
    + split; [|intros _]; apply contains_app_r, contains_app_l.
      * apply contains_suffix.
      * apply contains_refl.
  - intros Henv. unfold locate_state_file. rewrite Henv. reflexivity.
Qed.

Lemma missing_state_is_reported_witness :
  get_tf_state (λ _, inl "") staging_without_state ["srv"; "infra"]
  = Raise (AnsiblePluginError
      ("Could not locate the terraform state file for workspace staging. "
       +:+ "Expected at: /srv/infra/terraform.tfstate.d/staging/terraform.tfstate")).
Proof.
  destruct (missing_state_is_reported (λ _, inl "") staging_without_state
              ["srv"; "infra"]) as (msg & Hrun & _ & _ & Hmsg).
  - vm_compute. reflexivity.
  - rewrite Hrun, Hmsg; [reflexivity|]. vm_compute. reflexivity.
Defined.

(** * Further properties of the plugin *)

(** ** The file filter *)

Lemma string_eqb_eq (s t : string) : String.eqb s t = true ↔ s = t.
Proof. apply String.eqb_eq. Qed.

Lemma endswith_spec (s suffix : string) :
  endswith s suffix = true ↔ ∃ stem, s = stem +:+ suffix.
Proof.
  induction s as [|a s IH]; cbn [endswith].
  - destruct (String.eqb "" suffix) eqn:E.
    + apply string_eqb_eq in E as <-. split; [|done]. by exists "".
    + split; [done|]. intros (stem & Hs). destruct stem as [|b stem].
      * change ("" = suffix) in Hs. subst suffix. by rewrite String.eqb_refl in E.
      * change ("" = String b (stem +:+ suffix)) in Hs. discriminate Hs.
  - destruct (String.eqb (String a s) suffix) eqn:E.
    + apply string_eqb_eq in E as <-. split; [|done]. by exists "".
    + rewrite IH. split.
      * intros (stem & ->). by exists (String a stem).
      * intros (stem & Hs). destruct stem as [|b stem].
        -- change (String a s = suffix) in Hs. subst suffix.
           by rewrite String.eqb_refl in E.
        -- change (String a s = String b (stem +:+ suffix)) in Hs.
           injection Hs as -> ->. by exists stem.
Qed.

(** X1.  [verify_file] accepts a path exactly when the base class accepts
    it and the path ends in "tf.yml" or in "tf.yaml"; nothing is asked of
    what precedes that suffix. *)
Theorem verify_file_accepts base_verify_file path :
  verify_file base_verify_file path = true ↔
  base_verify_file path = true ∧
  ∃ stem, path = stem +:+ "tf.yml" ∨ path = stem +:+ "tf.yaml".
Proof.
  unfold verify_file. destruct (base_verify_file path); [|by split; [|intros []]].
  destruct (endswith path "tf.yml") eqn:E1; simpl.
  - apply endswith_spec in E1 as (stem & ->). split; [|done].
    intros _. split; [done|]. exists stem. by left.
  - destruct (endswith path "tf.yaml") eqn:E2.
    + apply endswith_spec in E2 as (stem & ->). split; [|done].
      intros _. split; [done|]. exists stem. by right.
    + split; [done|]. intros [_ (stem & [-> | ->])].
      * assert (endswith (stem +:+ "tf.yml") "tf.yml" = true) as E
          by (apply endswith_spec; by exists stem). congruence.
      * assert (endswith (stem +:+ "tf.yaml") "tf.yaml" = true) as E
          by (apply endswith_spec; by exists stem). congruence.
Qed.

(** ** Resources of other providers, anywhere in the list *)

Lemma parse_resource_foreign d r inv :
  recognised r = false → parse_resource d r inv = (inv, OK d).
Proof.
  unfold recognised, parse_resource. intros Hr%bool_decide_eq_false.
  by rewrite decide_False.
Qed.

Lemma scan_recognised rs d inv :
  for_fold rs parse_resource d inv
  = for_fold (List.filter recognised rs) parse_resource d inv.
Proof.
  revert d inv. induction rs as [|r rs IH]; intros d inv; simpl; [done|].
  destruct (recognised r) eqn:Hr; simpl.
  - unfold bind. destruct (parse_resource d r inv) as [inv1 [d1|e]]; [|done].
    apply IH.
  - unfold bind. rewrite (parse_resource_foreign d r inv Hr). apply IH.
Qed.

(** X3.  Resources of another provider, wherever they stand in the list,
    have no part in resolution: the test of line 61 comes before anything
    else is read of a resource, so dropping them from the list changes
    neither the outcome nor the sink. *)
Theorem foreign_resources_are_ignored rs inv :
  parse_resources rs inv = parse_resources (List.filter recognised rs) inv.
Proof. unfold parse_resources, bind. by rewrite scan_recognised. Qed.

(** ** The delayed mapping as a dictionary *)

Lemma delayed_get_append d g c g' :
  delayed_get (delayed_append d g c) g'
  = if decide (g = g') then delayed_get d g ++ [c] else delayed_get d g'.
Proof.
  induction d as [|[k cs] d IH]; simpl.
  - repeat case_decide; congruence.
  - destruct (decide (k = g)) as [->|Hk]; simpl.
    + repeat case_decide; congruence.
    + rewrite IH. repeat case_decide; congruence.
Qed.

Lemma delayed_keys_append d g c :
  (delayed_append d g c).*1 = if decide (g ∈ d.*1) then d.*1 else d.*1 ++ [g].
Proof.
  induction d as [|[k cs] d IH].
  - simpl. destruct (decide (g ∈ [])) as [Hin|]; [|done].
    by apply elem_of_nil in Hin.
  - cbn [delayed_append]. destruct (decide (k = g)) as [->|Hk].
    + destruct (decide (g ∈ ((g, cs) :: d).*1)) as [|Hn]; [done|].
      exfalso. apply Hn. simpl. set_solver.
    + rewrite !fmap_cons, IH. cbn [fst].
      repeat case_decide; first [done | exfalso; set_solver].
Qed.

Lemma delayed_keys_NoDup d g c :
  NoDup d.*1 → NoDup (delayed_append d g c).*1.
Proof.
  intros Hnd. rewrite delayed_keys_append. case_decide; [done|].
  apply NoDup_app. split; [done|]. split; [set_solver|]. apply NoDup_singleton.
Qed.

(** X4.  [delayed[group].append(child)] on the association list behaves
    as on the dictionary of line 58: afterwards the entry of [group] is its
    old entry followed by [child] and every other entry is what it was; a
    key that was present keeps its place and a new key goes last, so keys
    stay distinct. *)
Theorem delayed_append_is_dict_append d g c :
  (∀ g', delayed_get (delayed_append d g c) g'
         = if decide (g = g') then delayed_get d g ++ [c] else delayed_get d g') ∧
  (delayed_append d g c).*1 = (if decide (g ∈ d.*1) then d.*1 else d.*1 ++ [g]) ∧
  (NoDup d.*1 → NoDup (delayed_append d g c).*1).
Proof.
  split; [|split].
  - intros g'. apply delayed_get_append.
  - apply delayed_keys_append.
  - apply delayed_keys_NoDup.
Qed.

Lemma delayed_append_is_dict_append_witness :
  NoDup (delayed_append [("web", ["a"]); ("db", ["b"])] "web" "c").*1.
Proof.
  apply (delayed_append_is_dict_append [("web", ["a"]); ("db", ["b"])] "web" "c").
  apply NoDup_cons. split; [set_solver|]. apply NoDup_singleton.
Defined.

(** ** What the scan records for the delayed pass *)

Lemma delayed_extend_get d g cs g' :
  delayed_get (foldl (λ d child, delayed_append d g child) d cs) g'
  = if decide (g = g') then delayed_get d g ++ cs else delayed_get d g'.
Proof.
  revert d. induction cs as [|c cs IH]; intros d; simpl.
  - destruct (decide (g = g')) as [->|]; [|done]. by rewrite app_nil_r.
  - rewrite IH, !delayed_get_append.
    destruct (decide (g = g')) as [->|Hn];
      rewrite ?decide_True by done; rewrite ?decide_False by done;
      [by rewrite <- app_assoc | done].
Qed.

Lemma delayed_append_nonempty d g c :
  Forall (λ e, e.2 ≠ []) d → Forall (λ e, e.2 ≠ []) (delayed_append d g c).
Proof.
  induction d as [|[k ks] d IHd]; simpl; intros Hne.
  - by repeat constructor.
  - apply Forall_cons in Hne as [Hk Hd]. case_decide.
    + constructor; [|done]. simpl. by destruct ks.
    + constructor; [done|]. by apply IHd.
Qed.

Lemma delayed_extend_keys d g cs :
  NoDup d.*1 ∧ Forall (λ e, e.2 ≠ []) d →
  NoDup (foldl (λ d child, delayed_append d g child) d cs).*1 ∧
  Forall (λ e, e.2 ≠ []) (foldl (λ d child, delayed_append d g child) d cs).
Proof.
  revert d. induction cs as [|c cs IH]; intros d [Hnd Hne]; simpl; [done|].
  apply IH. split; [by apply delayed_keys_NoDup | by apply delayed_append_nonempty].
Qed.

(** A key is present exactly when its entry is not empty. *)
Lemma delayed_key_nonempty d g :
  Forall (λ e, e.2 ≠ []) d → g ∈ d.*1 ↔ delayed_get d g ≠ [].
Proof.
  induction d as [|[k ks] d IH]; simpl; intros Hne.
  - split; [by intros ?%elem_of_nil | done].
  - apply Forall_cons in Hne as [Hk Hd]. simpl in Hk.
    destruct (decide (k = g)) as [->|Hkg].
    + split; [done | intros _; set_solver].
    + rewrite <- (IH Hd). set_solver.
Qed.

Lemma parse_instance_delayed rtype d data inv inv' d' :
  parse_instance rtype d data inv = (inv', OK d') →
  (NoDup d.*1 ∧ Forall (λ e, e.2 ≠ []) d →
   NoDup d'.*1 ∧ Forall (λ e, e.2 ≠ []) d') ∧
  ∀ g, delayed_get d' g
       = delayed_get d g ++
         (if decide (rtype = "ansible_group" ∧ name data = g)
          then default [] (children data) else []).
Proof.
  destruct (decide (rtype = "ansible_group")) as [->|Hng].
  - rewrite parse_instance_group.
    intros (inv1 & group & Hadd & Hk)%bind_inv_OK.
    apply bind_inv_OK in Hk as (inv2 & [] & _ & Hret).
    injection Hadd as <- <-. injection Hret as _ <-.
    destruct (children data) as [cs|]; simpl.
    + split; [apply delayed_extend_keys|]. intros g.
      rewrite delayed_extend_get.
      destruct (decide (name data = g)) as [->|Hn].
      * by rewrite decide_True.
      * rewrite decide_False by tauto. by rewrite app_nil_r.
    + split; [done|]. intros g. case_decide; by rewrite app_nil_r.
  - intros Hrun. assert (d' = d) as ->.
    { revert Hrun. destruct (decide (rtype = "ansible_host")) as [->|Hnh].
      - rewrite parse_instance_host.
        intros (inv1 & host & _ & Hk)%bind_inv_OK.
        apply bind_inv_OK in Hk as (inv2 & [] & _ & Hk).
        apply bind_inv_OK in Hk as (inv3 & [] & _ & Hret).
        by injection Hret as _ <-.
      - rewrite parse_instance_other by done. by intros [= _ <-]. }
    split; [done|]. intros g.
    rewrite decide_False by tauto. by rewrite app_nil_r.
Qed.

Lemma parse_items_delayed its d inv inv' d' :
  parse_items its d inv = (inv', OK d') →
  (NoDup d.*1 ∧ Forall (λ e, e.2 ≠ []) d →
   NoDup d'.*1 ∧ Forall (λ e, e.2 ≠ []) d') ∧
  ∀ g, delayed_get d' g = delayed_get d g ++ declared_children its g.
Proof.
  unfold parse_items. revert d inv.
  induction its as [|[rtype data] its IH]; intros d inv; simpl.
  - intros [= _ <-]. split; [done|]. intros g. by rewrite app_nil_r.
  - intros (inv1 & d1 & Hx & Hrest)%bind_inv_OK.
    apply parse_instance_delayed in Hx as [Hok1 Hget1].
    apply IH in Hrest as [Hok Hget]. split; [tauto|].
    intros g. rewrite Hget, Hget1, <- app_assoc. done.
Qed.

(** X5.  When the scan of lines 60 to 93 has returned, the delayed mapping
    holds, for every group name, the children that the group instances of
    that name list, in document order; a name has a key exactly when those
    instances list at least one child (a null or empty children attribute
    creates no entry), and no key occurs twice. *)
Theorem scan_records_children rs inv inv' d :
  for_fold rs parse_resource [] inv = (inv', OK d) →
  NoDup d.*1 ∧
  ∀ g, delayed_get d g = declared_children (items rs) g ∧
       (g ∈ d.*1 ↔ declared_children (items rs) g ≠ []).
Proof.
  rewrite scan_items. intros [Hok Hget]%parse_items_delayed.
  destruct Hok as [Hnd Hne]; [split; [apply NoDup_nil_2 | constructor]|].
  split; [done|]. intros g. split; [apply Hget|].
  rewrite (delayed_key_nonempty d g Hne), (Hget g). done.
Qed.

Lemma scan_records_children_witness :
  NoDup [("web", ["app1"; "app2"])].*1 ∧
  ∀ g, delayed_get [("web", ["app1"; "app2"])] g
       = declared_children
           (items [ group_resource "web" (Some ["app1"]) None;
                    group_resource "db" None None;
                    group_resource "web" (Some ["app2"]) None ]) g ∧
       (g ∈ [("web", ["app1"; "app2"])].*1 ↔
        declared_children
          (items [ group_resource "web" (Some ["app1"]) None;
                   group_resource "db" None None;
                   group_resource "web" (Some ["app2"]) None ]) g ≠ []).
Proof.
  apply (scan_records_children
    [ group_resource "web" (Some ["app1"]) None;
      group_resource "db" None None;
      group_resource "web" (Some ["app2"]) None ]
    empty_inventory
    {| inv_hosts := ∅; inv_groups := {["web"; "db"]}; inv_edges := ∅;
       inv_vars := ∅ |}).
  vm_compute. reflexivity.
Defined.

(** ** The sink a resolution that returned leaves behind *)

Lemma inventory_eq (a b : InventoryData) :
  inv_hosts a = inv_hosts b → inv_groups a = inv_groups b →
  inv_edges a = inv_edges b → inv_vars a = inv_vars b → a = b.
Proof. destruct a, b. simpl. by intros -> -> -> ->. Qed.

Lemma declared_cons {K} `{Countable K} (f : string * Instance → gset K) it its :
  declared f (it :: its) = f it ∪ declared f its.
Proof. reflexivity. Qed.

Lemma elem_of_declared {K} `{Countable K} (f : string * Instance → gset K) its x :
  x ∈ declared f its ↔ ∃ it, it ∈ its ∧ x ∈ f it.
Proof.
  unfold declared. rewrite elem_of_union_list. split.
  - intros (X & (it & -> & Hit)%list_elem_of_fmap & Hx). by exists it.
  - intros (it & Hit & Hx). exists (f it). split; [|done].
    apply list_elem_of_fmap. by exists it.
Qed.

Lemma delayed_edges_cons k cs d :
  delayed_edges ((k, cs) :: d)
  = list_to_set ((λ c, (k, c)) <$> cs) ∪ delayed_edges d.
Proof. reflexivity. Qed.

Lemma delayed_children_cons (k : string) cs d :
  delayed_children ((k, cs) :: d) = list_to_set cs ∪ delayed_children d.
Proof. reflexivity. Qed.

Lemma delayed_edges_append d g c :
  delayed_edges (delayed_append d g c) = {[(g, c)]} ∪ delayed_edges d.
Proof.
  induction d as [|[k cs] d IH]; cbn [delayed_append].
  - rewrite delayed_edges_cons. set_solver.
  - case_decide; rewrite !delayed_edges_cons.
    + subst k. rewrite fmap_app, list_to_set_app_L. set_solver.
    + rewrite IH. set_solver.
Qed.

Lemma delayed_children_append d g c :
  delayed_children (delayed_append d g c) = {[c]} ∪ delayed_children d.
Proof.
  induction d as [|[k cs] d IH]; cbn [delayed_append].
  - rewrite delayed_children_cons. set_solver.
  - case_decide; rewrite !delayed_children_cons.
    + rewrite list_to_set_app_L. set_solver.
    + rewrite IH. set_solver.
Qed.

Lemma delayed_extend_sets d g cs :
  delayed_edges (foldl (λ d child, delayed_append d g child) d cs)
    = list_to_set ((λ c, (g, c)) <$> cs) ∪ delayed_edges d ∧
  delayed_children (foldl (λ d child, delayed_append d g child) d cs)
    = list_to_set cs ∪ delayed_children d.
Proof.
  revert d. induction cs as [|c cs IH]; intros d; simpl.
  - split; set_solver.
  - destruct (IH (delayed_append d g c)) as [-> ->].
    rewrite delayed_edges_append, delayed_children_append. split; set_solver.
Qed.

Lemma delayed_edge_child d g c :
  (g, c) ∈ delayed_edges d → c ∈ delayed_children d.
Proof.
  unfold delayed_edges, delayed_children. rewrite !elem_of_union_list.
  intros (X & (entry & -> & Hin)%list_elem_of_fmap & Hx).
  exists (list_to_set entry.2). split.
  - apply list_elem_of_fmap. by exists entry.
  - set_solver.
Qed.

(** [set_variables] touches nothing but the variables of its instance. *)
Lemma set_variables_effect data inv inv' r :
  set_variables data inv = (inv', r) →
  same_skeleton inv inv' ∧
  dom (inv_vars inv')
    = list_to_set ((λ kv, (name data, kv.1)) <$> default [] (variables data))
      ∪ dom (inv_vars inv) ∧
  ∀ o k, o ≠ name data → inv_vars inv' !! (o, k) = inv_vars inv !! (o, k).
Proof.
  intros Hrun. split.
  { by apply (preserves_run same_skeleton _ _ _ _ (set_variables_skeleton data)) in Hrun. }
  revert Hrun. unfold set_variables. destruct (variables data) as [vars|]; simpl.
  2: { intros [= <- _]. split; [set_solver | done]. }
  revert inv. induction vars as [|[k v] vars IH]; intros inv; simpl.
  - intros [= <- _]. split; [set_solver | done].
  - unfold bind at 1. simpl. intros [Hd Hf]%IH. simpl in *. split.
    + rewrite Hd, dom_insert_L. set_solver.
    + intros o k' Ho. rewrite Hf by done. apply lookup_insert_ne. congruence.
Qed.

(** The loop of line 80, once it has returned. *)
Lemma register_host_groups_effect host gs inv inv' :
  for_each gs (register_host_group host) inv = (inv', OK tt) →
  inv_hosts inv' = inv_hosts inv ∧
  inv_groups inv' = list_to_set gs ∪ inv_groups inv ∧
  inv_edges inv' = list_to_set ((λ g, (g, host)) <$> gs) ∪ inv_edges inv ∧
  inv_vars inv' = inv_vars inv.
Proof.
  revert inv. induction gs as [|g gs IH]; intros inv; simpl.
  - intros [= <-]. repeat split; set_solver.
  - intros (inv1 & [] & Hg & Hrest)%bind_inv_OK.
    rewrite register_host_group_eq in Hg. destruct (decide _); [done|].
    injection Hg as <-. apply IH in Hrest as (-> & -> & -> & ->). simpl.
    repeat split; set_solver.
Qed.

(** What one instance adds, once it has returned. *)
Lemma parse_instance_effect rtype d data inv inv' d' :
  parse_instance rtype d data inv = (inv', OK d') →
  inv_hosts inv' = item_hosts (rtype, data) ∪ inv_hosts inv ∧
  inv_groups inv' = item_groups (rtype, data) ∪ inv_groups inv ∧
  inv_edges inv' = item_host_edges (rtype, data) ∪ inv_edges inv ∧
  dom (inv_vars inv') = item_vars (rtype, data) ∪ dom (inv_vars inv) ∧
  delayed_edges d' = item_child_edges (rtype, data) ∪ delayed_edges d ∧
  delayed_children d' = item_children (rtype, data) ∪ delayed_children d.
Proof.
  unfold item_hosts, item_groups, item_host_edges, item_vars, item_child_edges,
    item_children. simpl.
  destruct (decide (rtype = "ansible_group")) as [->|Hng].
  - rewrite parse_instance_group. rewrite decide_False by done.
    rewrite (decide_True (P:=_ ∨ _)) by tauto.
    intros (inv1 & group & Hadd & Hk)%bind_inv_OK.
    apply bind_inv_OK in Hk as (inv2 & [] & Hv & Hret).
    injection Hadd as <- <-. injection Hret as <- <-.
    apply set_variables_effect in Hv as ((Hh & Hg & He) & Hd & _). simpl in *.
    rewrite <- Hh, <- Hg, <- He, Hd.
    destruct (children data) as [cs|]; simpl.
    + destruct (delayed_extend_sets d (name data) cs) as [-> ->].
      repeat split; set_solver.
    + repeat split; set_solver.
  - destruct (decide (rtype = "ansible_host")) as [->|Hnh].
    + rewrite parse_instance_host. rewrite (decide_True (P:=_ ∨ _)) by tauto.
      intros (inv1 & host & Hadd & Hk)%bind_inv_OK.
      apply bind_inv_OK in Hk as (inv2 & [] & Hg & Hk).
      apply bind_inv_OK in Hk as (inv3 & [] & Hv & Hret).
      injection Hadd as <- <-. injection Hret as <- <-.
      apply set_variables_effect in Hv as ((Hh & Hgr & He) & Hd & _).
      rewrite <- Hh, <- Hgr, <- He, Hd.
      destruct (groups data) as [gs|]; simpl.
      * apply register_host_groups_effect in Hg as (-> & -> & -> & ->). simpl.
        repeat split; set_solver.
      * injection Hg as <-. simpl. repeat split; set_solver.
    + rewrite parse_instance_other by done. rewrite decide_False by tauto.
      intros [= <- <-]. repeat split; set_solver.
Qed.

(** What the scan adds, once it has returned. *)
Lemma parse_items_effect its d inv inv' d' :
  parse_items its d inv = (inv', OK d') →
  inv_hosts inv' = declared item_hosts its ∪ inv_hosts inv ∧
  inv_groups inv' = declared item_groups its ∪ inv_groups inv ∧
  inv_edges inv' = declared item_host_edges its ∪ inv_edges inv ∧
  dom (inv_vars inv') = declared item_vars its ∪ dom (inv_vars inv) ∧
  delayed_edges d' = declared item_child_edges its ∪ delayed_edges d ∧
  delayed_children d' = declared item_children its ∪ delayed_children d.
Proof.
  unfold parse_items. revert d inv.
  induction its as [|[rtype data] its IH]; intros d inv.
  - simpl. intros [= <- <-]. unfold declared. simpl. repeat split; set_solver.
  - cbn [for_fold]. intros (inv1 & d1 & Hx & Hrest)%bind_inv_OK.
    apply parse_instance_effect in Hx as (Hh & Hg & He & Hv & Hde & Hdc).
    apply IH in Hrest as (-> & -> & -> & -> & -> & ->).
    rewrite !declared_cons, Hh, Hg, He, Hv, Hde, Hdc.
    repeat split; set_solver.
Qed.

(** The loop of line 97 over the children of one group. *)
Lemma register_delayed_children_eq group cs inv :
  for_each cs (register_delayed_child group) inv
  = ({| inv_hosts := inv_hosts inv;
        inv_groups := inv_groups inv ∪ (list_to_set cs ∖ inv_hosts inv);
        inv_edges := list_to_set ((λ c, (group, c)) <$> cs) ∪ inv_edges inv;
        inv_vars := inv_vars inv |}, OK tt).
Proof.
  revert inv. induction cs as [|c cs IH]; intros inv; cbn [for_each].
  - unfold ret. f_equal. apply inventory_eq; simpl; set_solver.
  - unfold bind. rewrite register_delayed_child_eq, IH. f_equal.
    apply inventory_eq; simpl; [done| |set_solver|done].
    destruct (decide (c ∈ inv_hosts inv)), (decide (c ∈ inv_groups inv));
      case_decide; set_solver.
Qed.

(** The delayed pass of lines 96 to 101 always returns; it adds the
    recorded edges and makes a group of every recorded child that is no
    host, and touches neither hosts nor variables. *)
Lemma register_delayed_eq d inv :
  register_delayed d inv
  = ({| inv_hosts := inv_hosts inv;
        inv_groups := inv_groups inv ∪ (delayed_children d ∖ inv_hosts inv);
        inv_edges := delayed_edges d ∪ inv_edges inv;
        inv_vars := inv_vars inv |}, OK tt).
Proof.
  unfold register_delayed. revert inv.
  induction d as [|[k cs] d IH]; intros inv; cbn [for_each].
  - unfold ret. f_equal.
    apply inventory_eq; unfold delayed_children, delayed_edges; simpl; set_solver.
  - unfold bind. cbn [fst snd]. rewrite register_delayed_children_eq, IH. f_equal.
    rewrite delayed_children_cons, delayed_edges_cons.
    apply inventory_eq; simpl; set_solver.
Qed.

(** The sink of a resolution that returned, in terms of what the handled
    instances declare. *)
Lemma parse_resources_effect rs inv inv' :
  parse_resources rs inv = (inv', OK tt) →
  inv_hosts inv' = inv_hosts inv ∪ declared item_hosts (items rs) ∧
  inv_groups inv'
    = inv_groups inv ∪ declared item_groups (items rs)
      ∪ (declared item_children (items rs)
         ∖ (inv_hosts inv ∪ declared item_hosts (items rs))) ∧
  inv_edges inv'
    = inv_edges inv ∪ declared item_host_edges (items rs)
      ∪ declared item_child_edges (items rs) ∧
  dom (inv_vars inv') = dom (inv_vars inv) ∪ declared item_vars (items rs).
Proof.
  rewrite parse_resources_items.
  intros (inv1 & d1 & Hscan & Hreg)%bind_inv_OK.
  apply parse_items_effect in Hscan as (Hh & Hg & He & Hv & Hde & Hdc).
  rewrite register_delayed_eq in Hreg. injection Hreg as <-. simpl.
  rewrite Hh, Hg, He, Hv, Hde, Hdc.
  unfold delayed_edges, delayed_children. simpl.
  repeat split; set_solver.
Qed.

(** *** The declared sets, by membership *)

Lemma elem_of_declared_hosts its h :
  h ∈ declared item_hosts its ↔
  ∃ data, ("ansible_host", data) ∈ its ∧ name data = h.
Proof.
  rewrite elem_of_declared. unfold item_hosts. split.
  - intros ([rtype data] & Hin & Hx). simpl in Hx.
    case_decide; [subst rtype|set_solver]. exists data. set_solver.
  - intros (data & Hin & <-). exists ("ansible_host", data). simpl. set_solver.
Qed.

Lemma elem_of_declared_groups its g :
  g ∈ declared item_groups its ↔
  (∃ data, ("ansible_group", data) ∈ its ∧ name data = g) ∨
  (∃ data gs, ("ansible_host", data) ∈ its ∧ groups data = Some gs ∧ g ∈ gs).
Proof.
  rewrite elem_of_declared. unfold item_groups. split.
  - intros ([rtype data] & Hin & Hx). simpl in Hx.
    destruct (decide (rtype = "ansible_group")) as [->|].
    { left. exists data. set_solver. }
    destruct (decide (rtype = "ansible_host")) as [->|]; [|set_solver].
    right. destruct (groups data) as [gs|] eqn:Hgs; simpl in Hx; [|set_solver].
    exists data, gs. set_solver.
  - intros [(data & Hin & <-) | (data & gs & Hin & Hgs & Hg)].
    + exists ("ansible_group", data). simpl. set_solver.
    + exists ("ansible_host", data). simpl. rewrite Hgs. set_solver.
Qed.

Lemma elem_of_declared_host_edges its g c :
  (g, c) ∈ declared item_host_edges its ↔
  ∃ data gs, ("ansible_host", data) ∈ its ∧ groups data = Some gs ∧
             g ∈ gs ∧ name data = c.
Proof.
  rewrite elem_of_declared. unfold item_host_edges. split.
  - intros ([rtype data] & Hin & Hx). simpl in Hx.
    destruct (decide (rtype = "ansible_host")) as [->|]; [|set_solver].
    destruct (groups data) as [gs|] eqn:Hgs; simpl in Hx; [|set_solver].
    exists data, gs. set_solver.
  - intros (data & gs & Hin & Hgs & Hg & <-). exists ("ansible_host", data).
    simpl. rewrite Hgs. set_solver.
Qed.

Lemma elem_of_declared_child_edges its g c :
  (g, c) ∈ declared item_child_edges its ↔
  ∃ data cs, ("ansible_group", data) ∈ its ∧ children data = Some cs ∧
             c ∈ cs ∧ name data = g.
Proof.
  rewrite elem_of_declared. unfold item_child_edges. split.
  - intros ([rtype data] & Hin & Hx). simpl in Hx.
    destruct (decide (rtype = "ansible_group")) as [->|]; [|set_solver].
    destruct (children data) as [cs|] eqn:Hcs; simpl in Hx; [|set_solver].
    exists data, cs. set_solver.
  - intros (data & cs & Hin & Hcs & Hc & <-). exists ("ansible_group", data).
    simpl. rewrite Hcs. set_solver.
Qed.

Lemma elem_of_declared_children its c :
  c ∈ declared item_children its ↔
  ∃ data cs, ("ansible_group", data) ∈ its ∧ children data = Some cs ∧ c ∈ cs.
Proof.
  rewrite elem_of_declared. unfold item_children. split.
  - intros ([rtype data] & Hin & Hx). simpl in Hx.
    destruct (decide (rtype = "ansible_group")) as [->|]; [|set_solver].
    destruct (children data) as [cs|] eqn:Hcs; simpl in Hx; [|set_solver].
    exists data, cs. set_solver.
  - intros (data & cs & Hin & Hcs & Hc). exists ("ansible_group", data).
    simpl. rewrite Hcs. set_solver.
Qed.

(** X6.  After a resolution that returned, the hosts of the sink are the
    hosts it held before and the names of the host instances, and no
    others: the delayed pass never registers a host. *)
Theorem resolved_hosts rs inv inv' :
  parse_resources rs inv = (inv', OK tt) →
  ∀ h, h ∈ inv_hosts inv' ↔
       h ∈ inv_hosts inv ∨
       ∃ data, ("ansible_host", data) ∈ items rs ∧ name data = h.
Proof.
  intros (Hh & _)%parse_resources_effect h.
  rewrite Hh, elem_of_union, elem_of_declared_hosts. done.
Qed.

(** X7.  After a resolution that returned, the edges of the sink are the
    edges it held before, an edge from each group a host instance lists to
    that host, and an edge from each group instance to each child it lists,
    and no others. *)
Theorem resolved_edges rs inv inv' :
  parse_resources rs inv = (inv', OK tt) →
  ∀ g c, (g, c) ∈ inv_edges inv' ↔
         (g, c) ∈ inv_edges inv ∨
         (∃ data gs, ("ansible_host", data) ∈ items rs ∧
                     groups data = Some gs ∧ g ∈ gs ∧ name data = c) ∨
         (∃ data cs, ("ansible_group", data) ∈ items rs ∧
                     children data = Some cs ∧ c ∈ cs ∧ name data = g).
Proof.
  intros (_ & _ & He & _)%parse_resources_effect g c.
  rewrite He, !elem_of_union, elem_of_declared_host_edges,
    elem_of_declared_child_edges. tauto.
Qed.

(** X8.  After a resolution that returned, the groups of the sink are the
    groups it held before, the names of the group instances, the groups
    that host instances list, and every child listed by a group instance
    that is not a host of the resulting sink, and no others. *)
Theorem resolved_groups rs inv inv' :
  parse_resources rs inv = (inv', OK tt) →
  ∀ g, g ∈ inv_groups inv' ↔
       g ∈ inv_groups inv ∨
       (∃ data, ("ansible_group", data) ∈ items rs ∧ name data = g) ∨
       (∃ data gs, ("ansible_host", data) ∈ items rs ∧
                   groups data = Some gs ∧ g ∈ gs) ∨
       ((∃ data cs, ("ansible_group", data) ∈ items rs ∧
                    children data = Some cs ∧ g ∈ cs) ∧
        g ∉ inv_hosts inv').
Proof.
  intros (Hh & Hg & _)%parse_resources_effect g.
  rewrite Hg, Hh, !elem_of_union, elem_of_difference, !elem_of_union,
    elem_of_declared_groups, elem_of_declared_children, elem_of_declared_hosts.
  tauto.
Qed.

Lemma resolved_hosts_witness :
  "app1" ∈ inv_hosts fleet_sink ↔
  "app1" ∈ inv_hosts empty_inventory ∨
  ∃ data, ("ansible_host", data) ∈ items fleet ∧ name data = "app1".
Proof.
  refine (resolved_hosts fleet empty_inventory fleet_sink _ "app1").
  vm_compute. reflexivity.
Defined.

Lemma resolved_edges_witness :
  ("web", "edge") ∈ inv_edges fleet_sink ↔
  ("web", "edge") ∈ inv_edges empty_inventory ∨
  (∃ data gs, ("ansible_host", data) ∈ items fleet ∧
              groups data = Some gs ∧ "web" ∈ gs ∧ name data = "edge") ∨
  (∃ data cs, ("ansible_group", data) ∈ items fleet ∧
              children data = Some cs ∧ "edge" ∈ cs ∧ name data = "web").
Proof.
  refine (resolved_edges fleet empty_inventory fleet_sink _ "web" "edge").
  vm_compute. reflexivity.
Defined.

Lemma resolved_groups_witness :
  "edge" ∈ inv_groups fleet_sink ↔
  "edge" ∈ inv_groups empty_inventory ∨
  (∃ data, ("ansible_group", data) ∈ items fleet ∧ name data = "edge") ∨
  (∃ data gs, ("ansible_host", data) ∈ items fleet ∧
              groups data = Some gs ∧ "edge" ∈ gs) ∨
  ((∃ data cs, ("ansible_group", data) ∈ items fleet ∧
               children data = Some cs ∧ "edge" ∈ cs) ∧
   "edge" ∉ inv_hosts fleet_sink).
Proof.
  refine (resolved_groups fleet empty_inventory fleet_sink _ "edge").
  vm_compute. reflexivity.
Defined.

(** ** Reordering the resources *)

Lemma items_Permutation rs rs' : rs ≡ₚ rs' → items rs ≡ₚ items rs'.
Proof. intros Hp. unfold items. by apply Permutation_flat_map. Qed.

Lemma declared_Permutation {K} `{Countable K} (f : string * Instance → gset K)
    its its' :
  its ≡ₚ its' → declared f its = declared f its'.
Proof. intros Hp. unfold declared. by rewrite Hp. Qed.

(** X9.  Two resolutions that returned, from the same sink, of resource
    lists that are reorderings of one another leave sinks with the same
    hosts, the same groups and the same edges. *)
Theorem skeleton_is_order_independent rs rs' inv inv1 inv2 :
  rs ≡ₚ rs' →
  parse_resources rs inv = (inv1, OK tt) →
  parse_resources rs' inv = (inv2, OK tt) →
  same_skeleton inv1 inv2.
Proof.
  intros Hp%items_Permutation
    (Hh1 & Hg1 & He1 & _)%parse_resources_effect
    (Hh2 & Hg2 & He2 & _)%parse_resources_effect.
  unfold same_skeleton. rewrite Hh1, Hg1, He1, Hh2, Hg2, He2.
  rewrite !(declared_Permutation _ _ _ Hp). by repeat split.
Qed.

Lemma skeleton_is_order_independent_witness :
  same_skeleton fleet_sink fleet_sink.
Proof.
  apply (skeleton_is_order_independent fleet (reverse fleet) empty_inventory).
  - apply Permutation_sym, reverse_Permutation.
  - vm_compute. reflexivity.
  - vm_compute. reflexivity.
Defined.

(** ** Variables *)

Lemma elem_of_declared_vars its o k :
  (o, k) ∈ declared item_vars its ↔
  ∃ rtype data vars v,
    (rtype, data) ∈ its ∧ (rtype = "ansible_group" ∨ rtype = "ansible_host") ∧
    name data = o ∧ variables data = Some vars ∧ (k, v) ∈ vars.
Proof.
  rewrite elem_of_declared. unfold item_vars. split.
  - intros ([rtype data] & Hin & Hx). simpl in Hx.
    destruct (decide _) as [Ht|]; [|set_solver].
    destruct (variables data) as [vars|] eqn:Hv; simpl in Hx; [|set_solver].
    apply elem_of_list_to_set, list_elem_of_fmap in Hx as ([k' v] & [= -> ->] & Hkv).
    by exists rtype, data, vars, v.
  - intros (rtype & data & vars & v & Hin & Ht & <- & Hv & Hkv).
    exists (rtype, data). split; [done|]. simpl.
    rewrite decide_True by done. rewrite Hv. simpl.
    apply elem_of_list_to_set, list_elem_of_fmap. by exists (k, v).
Qed.

(** X10.  After a resolution that returned, a variable is bound on an
    owner name exactly when it was bound before or a group or host
    instance of that name declares the key among its variables. *)
Theorem resolved_variable_names rs inv inv' :
  parse_resources rs inv = (inv', OK tt) →
  ∀ o k, is_Some (inv_vars inv' !! (o, k)) ↔
         is_Some (inv_vars inv !! (o, k)) ∨
         ∃ rtype data vars v,
           (rtype, data) ∈ items rs ∧
           (rtype = "ansible_group" ∨ rtype = "ansible_host") ∧
           name data = o ∧ variables data = Some vars ∧ (k, v) ∈ vars.
Proof.
  intros (_ & _ & _ & Hv)%parse_resources_effect o k.
  rewrite <- !elem_of_dom, Hv, elem_of_union, elem_of_declared_vars. done.
Qed.

Lemma resolved_variable_names_witness :
  is_Some (inv_vars fleet_sink !! ("app1", "port")) ↔
  is_Some (inv_vars empty_inventory !! ("app1", "port")) ∨
  ∃ rtype data vars v,
    (rtype, data) ∈ items fleet ∧
    (rtype = "ansible_group" ∨ rtype = "ansible_host") ∧
    name data = "app1" ∧ variables data = Some vars ∧ ("port", v) ∈ vars.
Proof.
  refine (resolved_variable_names fleet empty_inventory fleet_sink _ "app1" "port").
  vm_compute. reflexivity.
Defined.

(** *** Properties kept whatever the outcome *)

#[local] Instance keeps_preorder (P : InventoryData → Prop) : PreOrder (keeps P).
Proof. split; unfold keeps; [intros a; tauto | intros a b c; tauto]. Qed.

Section PreservesIn.

Context (R : relation InventoryData) `{!PreOrder R}.

Lemma preserves_for_each_in {A} (l : list A) (body : A → M unit) :
  (∀ x, x ∈ l → preserves R (body x)) → preserves R (for_each l body).
Proof.
  induction l as [|x l IH]; intros Hb; simpl.
  - by apply preserves_ret.
  - apply preserves_bind; [done | apply Hb; set_solver |].
    intros _. apply IH. intros y Hy. apply Hb. set_solver.
Qed.

Lemma preserves_for_fold_in {A S} (l : list A) (body : S → A → M S) s :
  (∀ s x, x ∈ l → preserves R (body s x)) → preserves R (for_fold l body s).
Proof.
  revert s. induction l as [|x l IH]; intros s Hb; simpl.
  - by apply preserves_ret.
  - apply preserves_bind; [done | apply Hb; set_solver |].
    intros s'. apply IH. intros s'' y Hy. apply Hb. set_solver.
Qed.

End PreservesIn.

Section Untouched.

Context (o k : string) (x : option JSONValue).

Let P : InventoryData → Prop := λ inv, inv_vars inv !! (o, k) = x.

Lemma set_variables_untouched data :
  name data ≠ o → preserves (keeps P) (set_variables data).
Proof.
  intros Hn inv HP. unfold P in *.
  destruct (set_variables data inv) as [inv' r] eqn:Hrun.
  apply set_variables_effect in Hrun as (_ & _ & Hf). simpl.
  by rewrite Hf.
Qed.

Lemma register_host_group_untouched host group :
  preserves (keeps P) (register_host_group host group).
Proof.
  intros inv HP. rewrite register_host_group_eq. by destruct (decide _).
Qed.

Lemma parse_instance_untouched rtype d data :
  name data ≠ o → preserves (keeps P) (parse_instance rtype d data).
Proof.
  intros Hn. unfold parse_instance. repeat case_decide.
  - apply preserves_bind; [apply _ | intros inv HP; exact HP |]. intros group.
    apply preserves_bind; [apply _ | by apply set_variables_untouched |].
    intros _. apply preserves_ret, _.
  - apply preserves_bind; [apply _ | intros inv HP; exact HP |]. intros host.
    apply preserves_bind; [apply _ | |].
    + destruct (groups data); [|apply preserves_ret, _].
      apply preserves_for_each; [apply _|]. intros g.
      apply register_host_group_untouched.
    + intros _. apply preserves_bind; [apply _ | by apply set_variables_untouched |].
      intros _. apply preserves_ret, _.
  - apply preserves_ret, _.
Qed.

Lemma parse_resources_untouched rs :
  (∀ rtype data, (rtype, data) ∈ items rs → name data ≠ o) →
  preserves (keeps P) (parse_resources rs).
Proof.
  intros Hn inv. rewrite parse_resources_items. revert inv.
  apply preserves_bind; [apply _ | |].
  - apply preserves_for_fold_in; [apply _|]. intros d [rtype data] Hin.
    apply parse_instance_untouched. by eapply Hn.
  - intros d inv HP. by rewrite register_delayed_eq.
Qed.

End Untouched.

(** X11.  Whatever the outcome, resolution leaves every variable of an
    owner name that no instance of the recognised provider carries as it
    found it: same keys, same values. *)
Theorem foreign_variables_are_untouched rs inv o :
  (∀ rtype data, (rtype, data) ∈ items rs → name data ≠ o) →
  ∀ k, inv_vars (parse_resources rs inv).1 !! (o, k) = inv_vars inv !! (o, k).
Proof.
  intros Hn k.
  by apply (parse_resources_untouched o k (inv_vars inv !! (o, k)) rs Hn inv).
Qed.

Lemma foreign_variables_are_untouched_witness :
  inv_vars (parse_resources fleet fleet_sink).1 !! ("edge", "port")
  = inv_vars fleet_sink !! ("edge", "port").
Proof.
  refine (foreign_variables_are_untouched fleet fleet_sink "edge" _ "port").
  intros rtype data Hin. vm_compute in Hin.
  apply list_elem_of_In in Hin. simpl in Hin.
  destruct Hin as [[= <- <-] | [[= <- <-] | []]]; discriminate.
Defined.

(** ** Which resolutions raise *)

(** One instance: it raises or returns as [first_conflict] tells from the
    group names alone, and returns with the group names it tells. *)
Lemma parse_instance_outcome rtype d data inv rest :
  match first_conflict (inv_groups inv) ((rtype, data) :: rest) with
  | Some h =>
      (∃ inv', parse_instance rtype d data inv = (inv', Raise (ConflictError h))) ∨
      (∃ inv' d', parse_instance rtype d data inv = (inv', OK d') ∧
                  first_conflict (inv_groups inv') rest = Some h)
  | None =>
      ∃ inv' d', parse_instance rtype d data inv = (inv', OK d') ∧
                 first_conflict (inv_groups inv') rest = None
  end.
Proof.
  assert (∀ G inv' d',
    parse_instance rtype d data inv = (inv', OK d') →
    G = inv_groups inv' →
    match first_conflict G rest with
    | Some h =>
        (∃ inv', parse_instance rtype d data inv = (inv', Raise (ConflictError h))) ∨
        (∃ inv' d', parse_instance rtype d data inv = (inv', OK d') ∧
                    first_conflict (inv_groups inv') rest = Some h)
    | None =>
        ∃ inv' d', parse_instance rtype d data inv = (inv', OK d') ∧
                   first_conflict (inv_groups inv') rest = None
    end) as Hok.
  { intros G inv' d' Hrun ->.
    destruct (first_conflict (inv_groups inv') rest) eqn:E;
      [right|]; by exists inv', d'. }
  cbn [first_conflict fst snd].
  destruct (decide (rtype = "ansible_group")) as [->|Hng].
  { destruct (parse_instance_group_returns d data inv) as (inv' & d' & Hrun).
    apply (Hok _ inv' d' Hrun).
    apply parse_instance_effect in Hrun as (_ & -> & _).
    unfold item_groups. simpl. done. }
  destruct (decide (rtype = "ansible_host")) as [->|Hnh].
  2: { apply (Hok _ inv d); [by apply parse_instance_other | done]. }
  destruct (groups data) as [[|g gs]|] eqn:Hgs.
  - assert (parse_instance "ansible_host" d data inv
            = ((set_variables data (add_host (name data) inv).1).1, OK d)) as Hrun.
    { rewrite parse_instance_host, Hgs. unfold bind at 1 2. simpl.
      destruct (set_variables_returns data (add_host (name data) inv).1)
        as (inv2 & [] & Hv). simpl in Hv.
      by rewrite (bind_OK _ _ _ _ _ Hv), Hv. }
    apply (Hok _ _ d Hrun).
    apply parse_instance_effect in Hrun as (_ & -> & _).
    unfold item_groups. simpl. rewrite Hgs. simpl. set_solver.
  - destruct (decide (name data ∈ inv_groups inv ∪ list_to_set (g :: gs)))
      as [Hc|Hc].
    + left. apply (parse_instance_host_raises d data (g :: gs)); [done..|].
      set_solver.
    + destruct (parse_instance_host_returns d data (g :: gs) inv Hgs)
        as (inv' & Hrun); [set_solver..|].
      apply (Hok _ inv' d Hrun).
      apply parse_instance_effect in Hrun as (_ & -> & _).
      unfold item_groups. simpl. rewrite Hgs. done.
  - destruct (parse_instance_host_no_groups d data inv Hgs)
      as (inv' & Hrun & _ & Hg & _).
    apply (Hok _ inv' d Hrun). by rewrite Hg.
Qed.

(** The outcome of the scan followed by the delayed pass. *)
Lemma resolve_items_outcome its d inv :
  (bind (parse_items its d) register_delayed inv).2
  = match first_conflict (inv_groups inv) its with
    | Some h => Raise (ConflictError h)
    | None => OK tt
    end.
Proof.
  unfold parse_items. revert d inv.
  induction its as [|[rtype data] its IH]; intros d inv.
  - simpl. unfold bind, ret. by rewrite register_delayed_eq.
  - pose proof (parse_instance_outcome rtype d data inv its) as Hx.
    unfold bind at 1. cbn [for_fold]. unfold bind at 1. cbn [fst snd].
    specialize (IH).
    destruct (first_conflict (inv_groups inv) ((rtype, data) :: its)) as [h|].
    + destruct Hx as [(inv' & ->) | (inv' & d' & -> & Hrest)]; [done|].
      specialize (IH d' inv'). rewrite Hrest in IH. exact IH.
    + destruct Hx as (inv' & d' & -> & Hrest).
      specialize (IH d' inv'). rewrite Hrest in IH. exact IH.
Qed.

(** X13.  The conflict check depends on the order of declaration.  A host
    that lists groups and a group of the same name: when the host is
    declared first resolution returns, and the name ends as a host and as a
    group; when the group is declared first resolution raises the
    ConflictError naming it. *)
Theorem conflict_check_depends_on_order inv h gs cs vh vg :
  gs ≠ [] → h ∉ inv_groups inv → h ∉ gs →
  (∃ inv',
     parse_resources [host_resource h (Some gs) vh; group_resource h cs vg] inv
     = (inv', OK tt) ∧ h ∈ inv_hosts inv' ∧ h ∈ inv_groups inv') ∧
  (parse_resources [group_resource h cs vg; host_resource h (Some gs) vh] inv).2
  = Raise (ConflictError h).
Proof.
  intros Hne Hh Hgs. split.
  - pose proof (resolve_items_outcome
      (items [host_resource h (Some gs) vh; group_resource h cs vg]) [] inv) as Ho.
    rewrite <- parse_resources_items in Ho.
    destruct (parse_resources _ inv) as [inv' r] eqn:Hrun. simpl in Ho.
    assert (r = OK tt) as ->.
    { rewrite Ho. unfold items, host_resource, group_resource. simpl.
      destruct gs as [|g gs]; [done|]. rewrite decide_False by set_solver. done. }
    exists inv'. split; [done|].
    apply parse_resources_effect in Hrun as (-> & -> & _).
    unfold items, host_resource, group_resource, declared, item_hosts, item_groups.
    simpl. set_solver.
  - rewrite parse_resources_items, resolve_items_outcome.
    unfold items, host_resource, group_resource. simpl.
    destruct gs as [|g gs]; [done|]. rewrite decide_True by set_solver. done.
Qed.

Lemma conflict_check_depends_on_order_witness :
  (∃ inv',
     parse_resources
       [host_resource "web" (Some ["prod"]) None; group_resource "web" None None]
       empty_inventory
     = (inv', OK tt) ∧ "web" ∈ inv_hosts inv' ∧ "web" ∈ inv_groups inv') ∧
  (parse_resources
     [group_resource "web" None None; host_resource "web" (Some ["prod"]) None]
     empty_inventory).2
  = Raise (ConflictError "web").
Proof.
  apply (conflict_check_depends_on_order empty_inventory "web" ["prod"]).
  - discriminate.
  - vm_compute. discriminate.
  - intros H%list_elem_of_In. simpl in H. destruct H as [H|[]]. discriminate H.
Defined.

(** ** Well-formed sinks *)

Lemma register_host_group_well_formed host group :
  preserves (keeps (λ inv, well_formed inv ∧ host ∈ inv_hosts inv))
    (register_host_group host group).
Proof.
  intros inv [[He Hv] Hh]. rewrite register_host_group_eq.
  destruct (decide _); simpl.
  - split; [split|done]; simpl.
    + intros g c Hgc. destruct (He g c Hgc). set_solver.
    + intros o k Hok. destruct (Hv o k Hok); set_solver.
  - split; [split|done]; simpl.
    + intros g c [Hgc%elem_of_singleton | Hgc]%elem_of_union.
      * injection Hgc as -> ->. set_solver.
      * destruct (He g c Hgc). set_solver.
    + intros o k Hok. destruct (Hv o k Hok); set_solver.
Qed.

Lemma set_variables_well_formed data :
  preserves
    (keeps (λ inv, well_formed inv ∧
                   (name data ∈ inv_hosts inv ∨ name data ∈ inv_groups inv)))
    (set_variables data).
Proof.
  intros inv [[He Hv] Hn].
  destruct (set_variables data inv) as [inv' r] eqn:Hrun.
  apply set_variables_effect in Hrun as ((Hh & Hg & Hed) & Hd & _). simpl.
  rewrite <- Hh, <- Hg. split; [split|done].
  - rewrite <- Hed, <- Hh, <- Hg. exact He.
  - rewrite <- Hh, <- Hg, Hd. intros o k [Hok | Hok]%elem_of_union.
    + apply elem_of_list_to_set, list_elem_of_fmap in Hok as (kv & [= -> _] & _).
      done.
    + by apply (Hv o k).
Qed.

Lemma keeps_run {A} (P : InventoryData → Prop) (m : M A) inv :
  preserves (keeps P) m → P inv → P (m inv).1.
Proof. intros Hm. apply Hm. Qed.

Lemma well_formed_add_node inv inv' :
  well_formed inv →
  inv_hosts inv ⊆ inv_hosts inv' → inv_groups inv ⊆ inv_groups inv' →
  inv_edges inv' = inv_edges inv → inv_vars inv' = inv_vars inv →
  well_formed inv'.
Proof.
  intros [He Hv] Hh Hg Hed Hvars. split.
  - rewrite Hed. intros g c Hgc. destruct (He g c Hgc). set_solver.
  - rewrite Hvars. intros o k Hok. destruct (Hv o k Hok); set_solver.
Qed.

Lemma set_variables_well_formed_host data :
  preserves (keeps (λ inv, well_formed inv ∧ name data ∈ inv_hosts inv))
    (set_variables data).
Proof.
  intros inv [Hwf Hh].
  destruct (set_variables_well_formed data inv (conj Hwf (or_introl Hh)))
    as [Hwf' _].
  split; [done|].
  destruct (set_variables data inv) as [inv' r] eqn:Hrun.
  apply set_variables_effect in Hrun as ((Hhosts & _) & _). simpl.
  by rewrite <- Hhosts.
Qed.

Lemma parse_instance_well_formed rtype d data :
  preserves (keeps well_formed) (parse_instance rtype d data).
Proof.
  intros inv Hwf.
  destruct (decide (rtype = "ansible_group")) as [->|Hng].
  { rewrite parse_instance_group. unfold bind at 1. simpl.
    apply (keeps_run
      (λ i, well_formed i ∧ (name data ∈ inv_hosts i ∨ name data ∈ inv_groups i))
      (bind (set_variables data) (λ _, ret _))).
    - apply preserves_bind; [apply _ | apply set_variables_well_formed |].
      intros _. apply preserves_ret, _.
    - split; [|simpl; set_solver].
      apply (well_formed_add_node inv); simpl; [done|set_solver..]. }
  destruct (decide (rtype = "ansible_host")) as [->|Hnh].
  2: { by rewrite parse_instance_other. }
  rewrite parse_instance_host. unfold bind at 1. simpl.
  apply (keeps_run
    (λ i, well_formed i ∧ name data ∈ inv_hosts i)
    (bind (match groups data with
           | Some gs => for_each gs (register_host_group (name data))
           | None => ret tt
           end)
          (λ _, bind (set_variables data) (λ _, ret d)))).
  - apply preserves_bind; [apply _ | |].
    + destruct (groups data); [|apply preserves_ret, _].
      apply preserves_for_each; [apply _|]. intros g.
      apply register_host_group_well_formed.
    + intros _. apply preserves_bind;
        [apply _ | apply set_variables_well_formed_host |].
      intros _. apply preserves_ret, _.
  - split; [|simpl; set_solver].
    apply (well_formed_add_node inv); simpl; [done|set_solver..].
Qed.

(** X15.  Resolution keeps the sink well formed, whatever the outcome: when
    every edge of the sink joins a registered group to a registered host or
    group and every variable belongs to a registered host or group, the
    same holds of the sink resolution leaves behind. *)
Theorem resolution_keeps_well_formed rs inv :
  well_formed inv → well_formed (parse_resources rs inv).1.
Proof.
  intros Hwf. rewrite parse_resources_items. unfold bind.
  pose proof (keeps_run well_formed (parse_items (items rs) []) inv) as Hscan.
  destruct (parse_items (items rs) [] inv) as [inv1 [d1|e]] eqn:Hrun.
  2: { apply Hscan; [|done]. apply preserves_for_fold; [apply _|].
       intros d [rtype data]. apply parse_instance_well_formed. }
  assert (well_formed inv1) as [He Hv].
  { apply Hscan; [|done]. apply preserves_for_fold; [apply _|].
    intros d [rtype data]. apply parse_instance_well_formed. }
  apply parse_items_effect in Hrun as (_ & Hg & _ & _ & Hde & _).
  rewrite register_delayed_eq.
  split; cbn [fst inv_hosts inv_groups inv_edges inv_vars].
  - intros g c [Hgc | Hgc]%elem_of_union.
    + split.
      * rewrite Hde in Hgc. apply elem_of_union in Hgc as [Hgc | Hgc];
          [|by apply elem_of_union_list in Hgc as (? & ?%elem_of_nil & _)].
        apply elem_of_declared_child_edges in Hgc as (data & cs & Hin & _ & _ & <-).
        rewrite Hg, !elem_of_union, elem_of_declared_groups.
        left. left. left. by exists data.
      * apply delayed_edge_child in Hgc.
        destruct (decide (c ∈ inv_hosts inv1)); set_solver.
    + destruct (He g c Hgc). set_solver.
  - intros o k Hok. destruct (Hv o k Hok); set_solver.
Qed.

Lemma resolution_keeps_well_formed_witness :
  well_formed (parse_resources fleet empty_inventory).1.
Proof.
  apply (resolution_keeps_well_formed fleet empty_inventory). split.
  - intros g c Hgc. by apply not_elem_of_empty in Hgc.
  - intros o k Hok. unfold empty_inventory in Hok. simpl in Hok.
    rewrite dom_empty_L in Hok. by apply not_elem_of_empty in Hok.
Defined.

(** ** Running the resolver again *)

(** X16.  Resolving the same resources a second time, against the sink the
    first resolution left, adds no host, no group and no edge when it
    returns. *)
Theorem second_run_adds_nothing rs inv inv1 inv2 :
  parse_resources rs inv = (inv1, OK tt) →
  parse_resources rs inv1 = (inv2, OK tt) →
  same_skeleton inv1 inv2.
Proof.
  intros (Hh1 & Hg1 & He1 & _)%parse_resources_effect
         (Hh2 & Hg2 & He2 & _)%parse_resources_effect.
  unfold same_skeleton. rewrite Hh2, Hg2, He2, Hh1, Hg1, He1.
  repeat split; apply set_eq; intros x; set_unfold; tauto.
Qed.

Lemma second_run_adds_nothing_witness : same_skeleton fleet_sink fleet_sink.
Proof.
  apply (second_run_adds_nothing fleet empty_inventory); vm_compute; reflexivity.
Defined.

(** X17.  Whatever the outcome, resolution removes nothing: every host,
    group and edge of the sink it started from is in the sink it leaves
    behind, and every variable that was bound is still bound. *)
Theorem resolution_removes_nothing rs inv :
  inv_hosts inv ⊆ inv_hosts (parse_resources rs inv).1 ∧
  inv_groups inv ⊆ inv_groups (parse_resources rs inv).1 ∧
  inv_edges inv ⊆ inv_edges (parse_resources rs inv).1 ∧
  ∀ o k, is_Some (inv_vars inv !! (o, k)) →
         is_Some (inv_vars (parse_resources rs inv).1 !! (o, k)).
Proof.
  destruct (parse_resources_grows rs inv) as (Hh & Hg & He & Hv).
  do 3 (split; [done|]). intros o k Hok%elem_of_dom. apply elem_of_dom. by apply Hv.
Qed.
